(** * binary-float-to-decimal: the decode pipeline of [src/main.c]

    The program reads a string of 32 binary digits, splits it into the sign,
    exponent and fraction fields of an IEEE 754 single-precision number
    ([split_binary_float]), parses each field ([parse_bits]) and rebuilds the
    value as a [double] ([convert_ieee_float]).

    The C types [float] and [double] are modelled by the Standard Library's
    specification of IEEE 754 arithmetic, [SpecFloat], at the binary32
    parameters (24, 128) and the binary64 parameters (53, 1024): every
    arithmetic operator of the source becomes the correctly rounded operation
    of its C type.  Strings are [string]s, the input array is the list of its
    characters, a block from [malloc] is a list of optional characters, and
    the output streams are a list of events. *)

From Stdlib Require Import ZArith List Bool Lia QArith Qpower Qabs.
From Stdlib Require Import Floats.SpecFloat.
From Stdlib Require Import Strings.Ascii Strings.String.
Import ListNotations.

Local Open Scope Z_scope.

(** ** Floating-point types of the C source *)

Module F32.
Definition prec : Z := 24.
Definition emax : Z := 128.
Definition add := SFadd prec emax.
Definition sub := SFsub prec emax.
Definition mul := SFmul prec emax.
Definition div := SFdiv prec emax.
(** The conversion [(float) n] of an [int]. *)
Definition of_int (n : Z) : spec_float := binary_normalize prec emax n 0 false.
End F32.

Module F64.
Definition prec : Z := 53.
Definition emax : Z := 1024.
Definition add := SFadd prec emax.
Definition mul := SFmul prec emax.
(** The conversion [(double) n] of an [int]. *)
Definition of_int (n : Z) : spec_float := binary_normalize prec emax n 0 false.
(** The promotion of a [float] to [double]: the same number, with the
    mantissa realigned to 53 bits. *)
Definition of_float (x : spec_float) : spec_float :=
  match x with
  | S754_finite s m e => binary_normalize prec emax (cond_Zopp s (Zpos m)) e false
  | _ => x
  end.
Definition one : spec_float := of_int 1.
Definition zero : spec_float := S754_zero false.
End F64.

(** The integer a [double] denotes, when it denotes one. *)
Definition integer_value (y : spec_float) : option Z :=
  match y with
  | S754_zero _ => Some 0
  | S754_finite s m e =>
      if 0 <=? e then Some (cond_Zopp s (Zpos m * 2 ^ e))
      else if Zpos m mod 2 ^ (- e) =? 0
           then Some (cond_Zopp s (Zpos m / 2 ^ (- e)))
           else None
  | _ => None
  end.

(** [pow] of <math.h> is called with the two constant bases -1.0 and 2.0.
    With an exponent that is an integer the result is the exact power (a
    power of two is rounded to [double] by [SFldexp], which also gives the
    overflow to infinity and the underflow to zero); the infinite exponents
    follow Annex F of the C standard.  An exponent that is not an integer
    cannot come out of [parse_bits] in integer mode; [pow (-1.0) y] is then a
    domain error, and [pow 2.0 y] is left as NaN. *)
Definition pow_neg_one (y : spec_float) : spec_float :=
  match y with
  | S754_nan => S754_nan
  | S754_infinity _ => F64.one
  | _ => match integer_value y with
         | Some n => if Z.even n then F64.one else SFopp F64.one
         | None => S754_nan
         end
  end.

Definition pow_two (y : spec_float) : spec_float :=
  match y with
  | S754_nan => S754_nan
  | S754_infinity false => S754_infinity false
  | S754_infinity true => F64.zero
  | _ => match integer_value y with
         | Some n => SFldexp F64.prec F64.emax F64.one n
         | None => S754_nan
         end
  end.

(** ** Characters and output events *)

(** The [int] value of a [char]; the digits and every other character below
    128 have the same value whether [char] is signed or not. *)
Definition char_code (c : ascii) : Z := Z.of_N (N_of_ascii c).

(** What the program writes: the two diagnostic [printf] lines and the
    [perror] message. *)
Inductive event : Type :=
| Printf_prompt
| Printf_binary (sign exponent fraction : option string)
| Printf_decimal (sign exponent fraction : spec_float)
| Printf_result (decimal_float : spec_float)
| Perror (msg : string).

Definition newline : string := String "010"%char EmptyString.

(** ** parse_bits *)

(** The loop [while ( *binary_string) acc = acc * 2 + ( *binary_string++ - '0')]. *)
Fixpoint parse_integer (binary_string : string) (acc : spec_float) : spec_float :=
  match binary_string with
  | EmptyString => acc
  | String c rest =>
      parse_integer rest
        (F32.add (F32.mul acc (F32.of_int 2)) (F32.of_int (char_code c - char_code "0")))
  end.

(** The loop [while ( *binary_string) { acc += ( *binary_string++ - '0') * factor; factor /= 2; }]. *)
Fixpoint parse_fractional (binary_string : string) (acc factor : spec_float) : spec_float :=
  match binary_string with
  | EmptyString => acc
  | String c rest =>
      parse_fractional rest
        (F32.add acc (F32.mul (F32.of_int (char_code c - char_code "0")) factor))
        (F32.div factor (F32.of_int 2))
  end.

(** The constant 0.5 as a [float]. *)
Definition half : spec_float := S754_finite false 8388608 (-24).

Definition parse_bits (binary_string : string) (is_fractional : bool) : spec_float :=
  if negb is_fractional
  then parse_integer binary_string (S754_zero false)
  else parse_fractional binary_string (S754_zero false) half.

(** ** convert_ieee_float *)

Record SplitFields : Type := mkFields {
  sign_bits : string;
  exponent_bits : string;
  fraction_bits : string
}.

Definition exponent_size : Z := 127.

Definition convert_ieee_float (full_float : SplitFields) : spec_float * list event :=
  let sign := parse_bits (sign_bits full_float) false in
  let exponent := parse_bits (exponent_bits full_float) false in
  let fraction := parse_bits (fraction_bits full_float) true in
  let out := [Printf_decimal sign exponent fraction] in
  let sign_part := pow_neg_one (F64.of_float sign) in
  let frac_part := F64.add F64.one (F64.of_float fraction) in
  if SFeqb exponent (F32.of_int 255) then
    (F64.of_int 0, out ++ [Perror ("Exponent is 255" ++ newline)])
  else if SFeqb exponent (F32.of_int 0) then
    let exp_part := pow_two (F64.of_int (1 - exponent_size)) in
    (F64.mul (F64.mul sign_part exp_part) frac_part, out)
  else
    let exp_part := pow_two (F64.of_float (F32.sub exponent (F32.of_int exponent_size))) in
    (F64.mul (F64.mul sign_part exp_part) frac_part, out).

(** ** split_binary_float *)

(** The object [binary_float] points into, as the characters it holds: the
    string, its terminator and whatever the array holds after it.  A pointer
    is null or an offset into that object; a read outside the object is
    undefined and makes the model return [None]. *)
Definition array : Type := list ascii.

Inductive pointer : Type :=
| Null
| Ptr (offset : nat).

Definition is_null (p : pointer) : bool :=
  match p with Null => true | Ptr _ => false end.

Definition incr (p : pointer) : pointer :=
  match p with Null => Null | Ptr o => Ptr (S o) end.

Definition load (a : array) (p : pointer) : option ascii :=
  match p with Null => None | Ptr o => nth_error a o end.

(** A block returned by [malloc]: [None] is a position never written. *)
Definition buffer : Type := list (option ascii).

Definition malloc_buffer (n : nat) : buffer := repeat None n.

(** [field[i] = c]; every index the source writes is inside its block. *)
Fixpoint store (i : nat) (c : ascii) (field : buffer) : buffer :=
  match field, i with
  | [], _ => []
  | _ :: t, O => Some c :: t
  | h :: t, S i' => h :: store i' c t
  end.

(** The string a [char *] to the start of the block denotes: the characters
    before the first terminator; [None] when an unwritten position or the end
    of the block comes first. *)
Fixpoint c_string (field : buffer) : option string :=
  match field with
  | [] => None
  | None :: _ => None
  | Some c :: t =>
      if Ascii.eqb c zero then Some EmptyString
      else option_map (String c) (c_string t)
  end.

(** The loop [for (i = 0; i < n && current_bit; i++, current_bit++)
    field[i] = *current_bit;] with [remaining = n - i] iterations to go.  The
    condition tests the pointer [current_bit], not the character it points
    to. *)
Fixpoint copy_bits (input : array) (remaining i : nat) (current_bit : pointer)
    (field : buffer) : option (buffer * pointer) :=
  match remaining with
  | O => Some (field, current_bit)
  | S remaining' =>
      if is_null current_bit then Some (field, current_bit)
      else match load input current_bit with
           | None => None
           | Some c => copy_bits input remaining' (S i) (incr current_bit) (store i c field)
           end
  end.

Record whole_float : Type := mkWhole {
  field0 : buffer;
  field1 : buffer;
  field2 : buffer
}.

Definition alloc_msg : string := "Memory allocation error." ++ newline.

(** [malloc k] tells whether the k-th allocation of the call succeeds.  The
    result is [None] when the call reads outside [input], [Some (None, _)]
    when it returns NULL, and the three blocks otherwise. *)
Definition split_binary_float (malloc : nat -> bool) (input : array)
    (binary_float : pointer) : option (option whole_float * list event) :=
  if negb (malloc 0%nat) then Some (None, [Perror alloc_msg]) else
  let current_bit := binary_float in
  if negb (malloc 1%nat) then Some (None, [Perror alloc_msg]) else
  match load input binary_float with
  | None => None
  | Some c0 =>
      let w0 := store 1 zero (store 0 c0 (malloc_buffer 2)) in
      let current_bit := incr current_bit in
      if negb (malloc 2%nat) then Some (None, [Perror alloc_msg]) else
      match copy_bits input 8 0 current_bit (malloc_buffer 9) with
      | None => None
      | Some (w1, current_bit) =>
          let w1 := store 8 zero w1 in
          if negb (malloc 3%nat) then Some (None, [Perror alloc_msg]) else
          match copy_bits input 23 0 current_bit (malloc_buffer 24) with
          | None => None
          | Some (w2, current_bit) =>
              let w2 := store 23 zero w2 in
              Some (Some (mkWhole w0 w1 w2),
                    [Printf_binary (c_string w0) (c_string w1) (c_string w2)])
          end
      end
  end.

(** ** main *)

(** The strings [convert_ieee_float] reads through the three pointers. *)
Definition fields_of (w : whole_float) : option SplitFields :=
  match c_string (field0 w), c_string (field1 w), c_string (field2 w) with
  | Some s, Some e, Some f => Some (mkFields s e f)
  | _, _, _ => None
  end.

(** The array [user_binary_float] after [scanf] stored the string [s]. *)
Definition input_array (s : string) : array := list_ascii_of_string s ++ [zero].

(** The body of [main] from the split to [decimal_float]; a NULL from
    [split_binary_float] is dereferenced by [convert_ieee_float]. *)
Definition decode (malloc : nat -> bool) (user_binary_float : array)
  : option (spec_float * list event) :=
  match split_binary_float malloc user_binary_float (Ptr 0) with
  | Some (Some parsed_float, out) =>
      match fields_of parsed_float with
      | Some full_float =>
          let (decimal_float, out') := convert_ieee_float full_float in
          Some (decimal_float, out ++ out')
      | None => None
      end
  | _ => None
  end.


(** Every allocation succeeds. *)
Definition heap_ok : nat -> bool := fun _ => true.

(** The decimal value the pipeline computes for the input line [s]. *)
Definition decoded (s : string) : option spec_float :=
  option_map fst (decode heap_ok (input_array s)).

(** ** Vocabulary of the specification *)

Definition is_bit (c : ascii) : bool := Ascii.eqb c "0" || Ascii.eqb c "1".

(** A string made of the characters '0' and '1' only. *)
Fixpoint binary_string (s : string) : bool :=
  match s with
  | EmptyString => true
  | String c rest => is_bit c && binary_string rest
  end.

(** The unsigned integer the digits of [s] spell after the digits of [acc],
    most significant digit first, in exact integer arithmetic. *)
Fixpoint bits_from (s : string) (acc : Z) : Z :=
  match s with
  | EmptyString => acc
  | String c rest => bits_from rest (2 * acc + (char_code c - char_code "0"))
  end.

Definition bits_value (s : string) : Z := bits_from s 0.

(** The data model's [SplitFields]: one sign bit, 8 exponent bits and 23
    fraction bits. *)
Definition well_formed (f : SplitFields) : bool :=
  binary_string (sign_bits f) && Nat.eqb (String.length (sign_bits f)) 1
  && binary_string (exponent_bits f) && Nat.eqb (String.length (exponent_bits f)) 8
  && binary_string (fraction_bits f) && Nat.eqb (String.length (fraction_bits f)) 23.

(** [n] characters '0'. *)
Fixpoint zeros (n : nat) : string :=
  match n with
  | O => EmptyString
  | S n' => String "0" (zeros n')
  end.

(** All the binary strings of length [n]. *)
Fixpoint all_bitstrings (n : nat) : list string :=
  match n with
  | O => [EmptyString]
  | S n' => flat_map (fun s => [String "0" s; String "1" s]) (all_bitstrings n')
  end.

(** The integers [0 .. n-1]. *)
Definition below (n : nat) : list Z := map Z.of_nat (seq 0 n).

(** Structural equality of floats (it tells the two zeros apart, which the
    C operator [==], [SFeqb], does not). *)
Definition sf_eqb (x y : spec_float) : bool :=
  match x, y with
  | S754_zero a, S754_zero b => Bool.eqb a b
  | S754_infinity a, S754_infinity b => Bool.eqb a b
  | S754_nan, S754_nan => true
  | S754_finite a m e, S754_finite b n f => Bool.eqb a b && Pos.eqb m n && Z.eqb e f
  | _, _ => false
  end.

Definition is_finite (x : spec_float) : bool :=
  match x with
  | S754_zero _ | S754_finite _ _ _ => true
  | _ => false
  end.

(** The rational number a float denotes (0 for the values that denote none). *)
Definition SF2Q (x : spec_float) : Q :=
  match x with
  | S754_finite s m e => inject_Z (cond_Zopp s (Zpos m)) * 2 ^ e
  | _ => 0
  end%Q.

(** ** Floats without rounding error *)

(** [m] at exponent [c] is the canonical representation of its value in the
    format [(prec, emax)]. *)
Definition canonical (prec emax : Z) (m : positive) (c : Z) : Prop :=
  fexp prec emax (Zpos (digits2_pos m) + c) = c /\ c <= emax - prec.

(** The number [V * 2 ^ e] belongs to the format: no rounding is needed. *)
Definition representable (prec emax V e : Z) : Prop :=
  0 < V < 2 ^ prec /\ emin prec emax <= e /\ Z.log2 V + 1 + e <= emax.

Definition cexp (prec emax V e : Z) : Z := fexp prec emax (Z.log2 V + 1 + e).

(** The float of sign [s] and magnitude [V * 2 ^ e]. *)
Definition canon (prec emax : Z) (s : bool) (V e : Z) : spec_float :=
  S754_finite s (Z.to_pos (V * 2 ^ (e - cexp prec emax V e))) (cexp prec emax V e).

(** The [float] [V * 2 ^ e], for [0 <= V]. *)
Definition dyadic32 (V e : Z) : spec_float := binary_normalize F32.prec F32.emax V e false.

(** The [double] [V * 2 ^ e], for [0 <= V]. *)
Definition dyadic64 (V e : Z) : spec_float := binary_normalize F64.prec F64.emax V e false.

(** The factor of [parse_bits] after [n] rounds of [factor /= 2]. *)
Fixpoint halved (n : nat) (factor : spec_float) : spec_float :=
  match n with
  | O => factor
  | S n' => F32.div (halved n' factor) (F32.of_int 2)
  end.

(** A float that is +0 or positive and finite. *)
Definition nonneg_finite (x : spec_float) : bool :=
  match x with
  | S754_zero false | S754_finite false _ _ => true
  | _ => false
  end.

(** ** Vocabulary of the further properties *)

(** The three blocks holding the first 32 characters of an array: character
    0, characters 1-8 and characters 9-31, each followed by a terminator. *)
Definition blocks_of (input : array) : whole_float :=
  mkWhole (map Some (firstn 1 input) ++ [Some zero])
          (map Some (firstn 8 (skipn 1 input)) ++ [Some zero])
          (map Some (firstn 23 (skipn 9 input)) ++ [Some zero]).

(** The IEEE 754 binary32 number with sign [s], biased exponent [e] in
    1..254 and fraction field [F]: the significand [2^23 + F] scaled by
    [2^(e - 127 - 23)]. *)
Definition binary32_normal (s : bool) (e F : Z) : spec_float :=
  S754_finite s (Z.to_pos (2 ^ 23 + F)) (e - 150).

(** * Exact operations of [SpecFloat] *)

Lemma digits2_pos_size (m : positive) : digits2_pos m = Pos.size m.
Proof. induction m; simpl; congruence. Qed.

Lemma digits2_pos_log2 (m : positive) : Zpos (digits2_pos m) = Z.log2 (Zpos m) + 1.
Proof.
  rewrite digits2_pos_size.
  destruct m; simpl; try reflexivity; rewrite Pos2Z.inj_succ; lia.
Qed.

Lemma iter_xO_pow (m d : positive) : Zpos (Pos.iter xO m d) = Zpos m * 2 ^ Zpos d.
Proof.
  induction d using Pos.peano_ind.
  - simpl. lia.
  - rewrite Pos.iter_succ, Pos2Z.inj_succ, Z.pow_succ_r by lia.
    rewrite Pos2Z.inj_xO, IHd. lia.
Qed.

Lemma iter_pos_iter {A : Type} (g : A -> A) (p : positive) (x : A) :
  iter_pos g p x = Pos.iter g x p.
Proof.
  revert x. induction p; intros x; simpl.
  - rewrite !IHp. rewrite <- !Pos.iter_swap. reflexivity.
  - rewrite !IHp. reflexivity.
  - reflexivity.
Qed.

Lemma shr_iter_exact (p m : positive) :
  iter_pos shr_1 p (Build_shr_record (Zpos (Pos.iter xO m p)) false false)
  = Build_shr_record (Zpos m) false false.
Proof.
  rewrite iter_pos_iter.
  induction p using Pos.peano_ind.
  - reflexivity.
  - rewrite Pos.iter_succ_r. rewrite (Pos.iter_succ p positive). simpl. exact IHp.
Qed.


Lemma pow2_split (a b : Z) : 0 <= a -> 0 <= b -> 2 ^ (a + b) = 2 ^ a * 2 ^ b.
Proof. intros. apply Z.pow_add_r; assumption. Qed.

Lemma pow2_pos (a : Z) : 0 <= a -> 0 < 2 ^ a.
Proof. intros. apply Z.pow_pos_nonneg; lia. Qed.

(** An equation between scaled integers does not depend on the exponent the
    two sides are scaled to. *)
Lemma rebase (A B a b lo t : Z) :
  lo <= a -> lo <= b -> t <= a -> t <= b ->
  A * 2 ^ (a - lo) = B * 2 ^ (b - lo) ->
  A * 2 ^ (a - t) = B * 2 ^ (b - t).
Proof.
  intros Hla Hlb Hta Htb H.
  destruct (Z_le_gt_dec t lo) as [Hle|Hgt].
  - replace (a - t) with ((a - lo) + (lo - t)) by lia.
    replace (b - t) with ((b - lo) + (lo - t)) by lia.
    rewrite !pow2_split by lia. rewrite !Z.mul_assoc, H. reflexivity.
  - apply (Z.mul_reg_r _ _ (2 ^ (t - lo))).
    + pose proof (pow2_pos (t - lo)). lia.
    + rewrite <- !Z.mul_assoc, <- !pow2_split by lia.
      replace (a - t + (t - lo)) with (a - lo) by lia.
      replace (b - t + (t - lo)) with (b - lo) by lia. exact H.
Qed.

Lemma log2_scaled (A B a b : Z) :
  0 < A -> 0 < B -> 0 <= a -> 0 <= b ->
  A * 2 ^ a = B * 2 ^ b -> Z.log2 A + a = Z.log2 B + b.
Proof.
  intros HA HB Ha Hb H.
  pose proof (Z.log2_mul_pow2 A a HA Ha) as H1.
  pose proof (Z.log2_mul_pow2 B b HB Hb) as H2.
  rewrite H in H1. lia.
Qed.

Section Exact.
Variables prec emax : Z.
Hypothesis format_ok : 0 < prec /\ 2 <= emax.
#[local] Set Default Proof Using "All".

Local Abbreviation canonical := (canonical prec emax).
Local Abbreviation representable := (representable prec emax).
Local Abbreviation cexp := (cexp prec emax).
Local Abbreviation canon := (canon prec emax).

Lemma cexp_le (V e : Z) : representable V e -> cexp V e <= e /\ cexp V e <= emax - prec.
Proof.
  intros [[HV0 HV] [He Hm]]. unfold cexp, fexp, emin in *.
  apply Z.log2_lt_pow2 in HV; lia.
Qed.

Lemma canon_mantissa (V e : Z) :
  representable V e -> Zpos (Z.to_pos (V * 2 ^ (e - cexp V e))) = V * 2 ^ (e - cexp V e).
Proof.
  intros H. destruct (cexp_le V e H) as [Hc _]. destruct H as [[HV0 _] _].
  apply Z2Pos.id. pose proof (pow2_pos (e - cexp V e)). nia.
Qed.

Lemma canon_canonical (V e : Z) :
  representable V e -> canonical (Z.to_pos (V * 2 ^ (e - cexp V e))) (cexp V e).
Proof.
  intros H. destruct (cexp_le V e H) as [Hc Hb]. split; [|exact Hb].
  rewrite digits2_pos_log2, canon_mantissa by exact H.
  destruct H as [[HV0 _] _].
  rewrite Z.log2_mul_pow2 by lia.
  unfold cexp at 3. f_equal. lia.
Qed.

Lemma round_aux_exact (s : bool) (M m : positive) (c k : Z) :
  canonical m c -> 0 <= k -> Zpos M = Zpos m * 2 ^ k ->
  binary_round_aux prec emax s (Zpos M) (c - k) loc_Exact = S754_finite s m c.
Proof.
  intros [Hc Hb] Hk HM.
  assert (Hd : Zpos (digits2_pos M) = Zpos (digits2_pos m) + k).
  { rewrite !digits2_pos_log2, HM, Z.log2_mul_pow2 by lia. lia. }
  assert (Hlast : shr_fexp prec emax (Zpos m) c loc_Exact
                  = (Build_shr_record (Zpos m) false false, c)).
  { unfold shr_fexp. simpl Zdigits2. rewrite Hc, Z.sub_diag. reflexivity. }
  unfold binary_round_aux.
  assert (Hfirst : shr_fexp prec emax (Zpos M) (c - k) loc_Exact
                   = (Build_shr_record (Zpos m) false false, c)).
  { unfold shr_fexp. simpl Zdigits2. rewrite Hd.
    replace (Zpos (digits2_pos m) + k + (c - k)) with (Zpos (digits2_pos m) + c) by lia.
    rewrite Hc. replace (c - (c - k)) with k by lia.
    destruct k as [|p|p]; try lia.
    - simpl. rewrite Z.sub_0_r. f_equal. f_equal. lia.
    - simpl shr_record_of_loc. unfold shr.
      assert (M = Pos.iter xO m p) as ->.
      { apply Pos2Z.inj. rewrite iter_xO_pow. exact HM. }
      rewrite shr_iter_exact. f_equal. lia. }
  rewrite Hfirst. simpl. rewrite Hlast. simpl.
  apply Z.leb_le in Hb. rewrite Hb. reflexivity.
Qed.

(** Rounding an integer mantissa whose value is representable returns the
    canonical float of that value. *)
Lemma round_aux_value (s : bool) (M : positive) (eM V e lo : Z) :
  representable V e -> lo <= eM -> lo <= e -> eM <= cexp V e ->
  Zpos M * 2 ^ (eM - lo) = V * 2 ^ (e - lo) ->
  binary_round_aux prec emax s (Zpos M) eM loc_Exact = canon s V e.
Proof.
  intros HR HlM Hle HeM H.
  destruct (cexp_le V e HR) as [Hc Hb].
  replace eM with (cexp V e - (cexp V e - eM)) at 1 by lia.
  apply round_aux_exact.
  - apply canon_canonical; exact HR.
  - lia.
  - rewrite canon_mantissa by exact HR.
    apply (rebase _ _ eM e lo eM) in H; try lia.
    rewrite Z.sub_diag, Z.mul_1_r in H. rewrite H.
    rewrite <- Z.mul_assoc, <- pow2_split by lia. f_equal. f_equal. lia.
Qed.

Lemma shl_align_value (m : positive) (e e' : Z) :
  e' <= e -> shl_align m e e' = (Z.to_pos (Zpos m * 2 ^ (e - e')), if e' <? e then e' else e).
Proof.
  intros H. unfold shl_align.
  destruct (e' - e) as [|p|p] eqn:E; try lia.
  - replace (e - e') with 0 by lia. replace (e' <? e) with false by (symmetry; apply Z.ltb_ge; lia).
    simpl. rewrite Pos.mul_1_r. reflexivity.
  - replace (e' <? e) with true by (symmetry; apply Z.ltb_lt; lia).
    f_equal. apply Pos2Z.inj. rewrite iter_xO_pow.
    replace (e - e') with (Zpos p) by lia.
    rewrite Z2Pos.id; [reflexivity|]. pose proof (pow2_pos (Zpos p)). lia.
Qed.

Lemma round_value (s : bool) (M : positive) (eM V e lo : Z) :
  representable V e -> lo <= eM -> lo <= e ->
  Zpos M * 2 ^ (eM - lo) = V * 2 ^ (e - lo) ->
  binary_round prec emax s M eM = canon s V e.
Proof.
  intros HR HlM Hle H.
  destruct (cexp_le V e HR) as [Hc Hb].
  assert (HV : 0 < V) by (destruct HR as [[? _] _]; assumption).
  assert (Hlog : Z.log2 (Zpos M) + eM = Z.log2 V + e).
  { pose proof (log2_scaled (Zpos M) V (eM - lo) (e - lo)) as L.
    specialize (L eq_refl HV). lia. }
  unfold binary_round.
  replace (fexp prec emax (Zpos (digits2_pos M) + eM)) with (cexp V e)
    by (unfold cexp; rewrite digits2_pos_log2; f_equal; lia).
  destruct (Z_le_gt_dec eM (cexp V e)) as [Hle'|Hgt].
  - unfold shl_align.
    destruct (cexp V e - eM) as [|p|p] eqn:E; try lia;
      apply (round_aux_value s M eM V e lo); auto.
  - rewrite shl_align_value by lia.
    replace (cexp V e <? eM) with true by (symmetry; apply Z.ltb_lt; lia).
    assert (Hm : Zpos M * 2 ^ (eM - cexp V e) = V * 2 ^ (e - cexp V e)).
    { destruct (Z_le_gt_dec lo (cexp V e)).
      - apply (rebase _ _ eM e lo); auto; lia.
      - apply (rebase _ _ eM e lo); auto; lia. }
    rewrite Hm.
    replace (cexp V e) with (cexp V e - 0) at 2 by lia.
    rewrite canon_mantissa by exact HR. rewrite <- (canon_mantissa V e HR).
    rewrite round_aux_exact with (m := Z.to_pos (V * 2 ^ (e - cexp V e))) (c := cexp V e).
    + reflexivity.
    + apply canon_canonical; exact HR.
    + lia.
    + rewrite Z.mul_1_r. reflexivity.
Qed.

Lemma add_value (Vx ex Vy ey V e lo : Z) :
  representable Vx ex -> representable Vy ey -> representable V e ->
  lo <= ex -> lo <= ey -> lo <= e ->
  Vx * 2 ^ (ex - lo) + Vy * 2 ^ (ey - lo) = V * 2 ^ (e - lo) ->
  SFadd prec emax (canon false Vx ex) (canon false Vy ey) = canon false V e.
Proof.
  intros Hx Hy HV Hlx Hly Hle H.
  destruct (cexp_le Vx ex Hx) as [Hcx _], (cexp_le Vy ey Hy) as [Hcy _].
  pose proof (canon_mantissa Vx ex Hx) as Hmx.
  pose proof (canon_mantissa Vy ey Hy) as Hmy.
  unfold canon at 1 2. unfold SFadd.
  set (mx := Z.to_pos (Vx * 2 ^ (ex - cexp Vx ex))) in *.
  set (my := Z.to_pos (Vy * 2 ^ (ey - cexp Vy ey))) in *.
  set (ez := Z.min (cexp Vx ex) (cexp Vy ey)).
  rewrite !shl_align_value by (unfold ez; lia).
  cbn [fst cond_Zopp].
  assert (Hax : 0 < Zpos mx * 2 ^ (cexp Vx ex - ez))
    by (pose proof (pow2_pos (cexp Vx ex - ez)); unfold ez in *; nia).
  assert (Hay : 0 < Zpos my * 2 ^ (cexp Vy ey - ez))
    by (pose proof (pow2_pos (cexp Vy ey - ez)); unfold ez in *; nia).
  rewrite <- Pos2Z.inj_add. cbn [binary_normalize].
  apply (round_value false _ ez V e (Z.min lo ez)); auto; try lia.
  rewrite Pos2Z.inj_add, !Z2Pos.id by assumption.
  set (t := Z.min lo ez).
  assert (Ht : t <= lo /\ t <= ez /\ ez <= cexp Vx ex /\ ez <= cexp Vy ey)
    by (unfold t, ez; lia).
  rewrite Hmx, Hmy, Z.mul_add_distr_r.
  rewrite <- !Z.mul_assoc, <- !pow2_split by lia.
  replace (ex - cexp Vx ex + (cexp Vx ex - ez + (ez - t))) with ((ex - lo) + (lo - t)) by lia.
  replace (ey - cexp Vy ey + (cexp Vy ey - ez + (ez - t))) with ((ey - lo) + (lo - t)) by lia.
  replace (e - t) with ((e - lo) + (lo - t)) by lia.
  rewrite !pow2_split by lia. rewrite !Z.mul_assoc, <- Z.mul_add_distr_r, H. reflexivity.
Qed.

Lemma mul_value (sx sy : bool) (mx my : positive) (ex ey V e lo : Z) :
  representable V e -> lo <= ex + ey -> lo <= e -> ex + ey <= cexp V e ->
  Zpos mx * Zpos my * 2 ^ (ex + ey - lo) = V * 2 ^ (e - lo) ->
  SFmul prec emax (S754_finite sx mx ex) (S754_finite sy my ey) = canon (xorb sx sy) V e.
Proof.
  intros HV H1 H2 H3 H. cbn [SFmul].
  apply (round_aux_value _ _ _ V e lo); auto.
Qed.

Lemma canon_value (s : bool) (M : positive) (eM V e lo : Z) :
  representable V e -> lo <= eM -> lo <= e ->
  Zpos M * 2 ^ (eM - lo) = V * 2 ^ (e - lo) ->
  binary_normalize prec emax (cond_Zopp s (Zpos M)) eM false = canon s V e.
Proof.
  intros. destruct s; cbn [cond_Zopp Z.opp binary_normalize];
    apply (round_value _ _ _ V e lo); auto.
Qed.

Lemma normalize_pos (V e : Z) :
  representable V e -> binary_normalize prec emax V e false = canon false V e.
Proof.
  intros HR. assert (HV : 0 < V) by (destruct HR as [[? _] _]; assumption).
  destruct V as [|p|p]; try lia.
  apply (canon_value false p e (Zpos p) e e); auto; lia.
Qed.

Lemma canon_same (s : bool) (V e V' e' lo : Z) :
  representable V e -> representable V' e' -> lo <= e -> lo <= e' ->
  V * 2 ^ (e - lo) = V' * 2 ^ (e' - lo) -> canon s V e = canon s V' e'.
Proof.
  intros HR HR' H1 H2 H.
  assert (HV : 0 < V) by (destruct HR as [[? _] _]; assumption).
  destruct V as [|p|p]; try lia.
  rewrite <- (round_value s p e (Zpos p) e e) by (auto; lia).
  apply (round_value s p e V' e' lo); auto.
Qed.

Lemma add_zero_r (x : spec_float) :
  nonneg_finite x = true -> SFadd prec emax x (S754_zero false) = x.
Proof. destruct x as [[]| | |[] m e]; simpl; try discriminate; reflexivity. Qed.

(** Adding two non-negative floats whose sum is representable is exact. *)
Lemma add_dyadic (Vx ex Vy ey V e lo : Z) :
  0 <= Vx -> 0 <= Vy ->
  (0 < Vx -> representable Vx ex) -> (0 < Vy -> representable Vy ey) ->
  (0 < V -> representable V e) ->
  lo <= ex -> lo <= ey -> lo <= e ->
  Vx * 2 ^ (ex - lo) + Vy * 2 ^ (ey - lo) = V * 2 ^ (e - lo) ->
  SFadd prec emax (binary_normalize prec emax Vx ex false)
                  (binary_normalize prec emax Vy ey false)
  = binary_normalize prec emax V e false.
Proof.
  intros Hx Hy Rx Ry RV Hlx Hly Hle H.
  pose proof (pow2_pos (ex - lo)). pose proof (pow2_pos (ey - lo)).
  pose proof (pow2_pos (e - lo)).
  destruct (Z.eq_dec Vx 0) as [->|Hnx]; destruct (Z.eq_dec Vy 0) as [->|Hny].
  - assert (V = 0) as -> by nia. reflexivity.
  - assert (0 < V) by nia.
    rewrite (normalize_pos Vy), (normalize_pos V) by (auto; apply Ry; lia).
    cbn [binary_normalize SFadd canon]. fold (canon false Vy ey).
    apply canon_same with (lo := lo); auto; try lia. apply Ry; lia.
  - assert (0 < V) by nia.
    rewrite (normalize_pos Vx), (normalize_pos V) by (auto; apply Rx; lia).
    cbn [binary_normalize]. rewrite add_zero_r by reflexivity.
    apply canon_same with (lo := lo); auto; try lia. apply Rx; lia.
  - assert (0 < V) by nia.
    rewrite (normalize_pos Vx), (normalize_pos Vy), (normalize_pos V)
      by (auto; try apply Rx; try apply Ry; lia).
    apply add_value with (lo := lo); auto; try lia; try apply Rx; try apply Ry; lia.
Qed.
End Exact.

Lemma Qpow2_add (a b : Z) : (2 ^ (a + b) == 2 ^ a * 2 ^ b)%Q.
Proof. apply Qpower_plus. discriminate. Qed.

Lemma Qpow2_inject (n : Z) : 0 <= n -> (inject_Z (2 ^ n) == 2 ^ n)%Q.
Proof. intros. rewrite Zpower_Qpower by assumption. reflexivity. Qed.

Lemma SF2Q_canon (prec emax : Z) (s : bool) (V e : Z) :
  0 < prec /\ 2 <= emax -> representable prec emax V e ->
  (SF2Q (canon prec emax s V e) == inject_Z (cond_Zopp s V) * 2 ^ e)%Q.
Proof.
  intros Hf HR. unfold canon, SF2Q.
  destruct (cexp_le prec emax Hf V e HR) as [Hc _].
  assert (Hm : cond_Zopp s (Zpos (Z.to_pos (V * 2 ^ (e - cexp prec emax V e))))
               = cond_Zopp s V * 2 ^ (e - cexp prec emax V e)).
  { rewrite (canon_mantissa prec emax Hf V e HR). destruct s; simpl; lia. }
  rewrite Hm, inject_Z_mult, Qpow2_inject by lia.
  rewrite <- Qmult_assoc, <- Qpow2_add.
  replace (e - cexp prec emax V e + cexp prec emax V e) with e by lia. reflexivity.
Qed.

(** * The program's arithmetic is exact *)

Lemma sf_eqb_eq (x y : spec_float) : sf_eqb x y = true -> x = y.
Proof.
  destruct x, y; simpl; try discriminate; intros H.
  - apply Bool.eqb_prop in H. congruence.
  - apply Bool.eqb_prop in H. congruence.
  - reflexivity.
  - apply andb_prop in H as [H He]. apply andb_prop in H as [Hs Hm].
    apply Bool.eqb_prop in Hs. apply Pos.eqb_eq in Hm. apply Z.eqb_eq in He.
    congruence.
Qed.

Lemma below_spec (P : Z -> bool) (n : nat) :
  forallb P (below n) = true -> forall i, 0 <= i < Z.of_nat n -> P i = true.
Proof.
  intros H i Hi. rewrite forallb_forall in H. apply H.
  unfold below. replace i with (Z.of_nat (Z.to_nat i)) by lia.
  apply in_map, in_seq. lia.
Qed.

Lemma format32 : 0 < F32.prec /\ 2 <= F32.emax.
Proof. unfold F32.prec, F32.emax. lia. Qed.

Lemma format64 : 0 < F64.prec /\ 2 <= F64.emax.
Proof. unfold F64.prec, F64.emax. lia. Qed.

Lemma representable32 (V e : Z) :
  0 < V < 2 ^ 24 -> -149 <= e <= 104 -> representable F32.prec F32.emax V e.
Proof.
  intros HV He. unfold representable, emin, F32.prec, F32.emax.
  assert (Z.log2 V < 24) by (apply Z.log2_lt_pow2; lia). lia.
Qed.

Lemma representable64 (V e : Z) :
  0 < V < 2 ^ 53 -> -1074 <= e <= 971 -> representable F64.prec F64.emax V e.
Proof.
  intros HV He. unfold representable, emin, F64.prec, F64.emax.
  assert (Z.log2 V < 53) by (apply Z.log2_lt_pow2; lia). lia.
Qed.

Lemma dyadic32_canon (V e : Z) :
  0 < V < 2 ^ 24 -> -149 <= e <= 104 -> dyadic32 V e = canon F32.prec F32.emax false V e.
Proof.
  intros. apply (normalize_pos _ _ format32). apply representable32; assumption.
Qed.

Lemma dyadic32_nonneg_finite (V e : Z) :
  0 <= V < 2 ^ 24 -> -149 <= e <= 104 -> nonneg_finite (dyadic32 V e) = true.
Proof.
  intros HV He. destruct (Z.eq_dec V 0) as [->|Hn]; [reflexivity|].
  rewrite dyadic32_canon by lia. reflexivity.
Qed.

(** Doubling the integer and lowering the exponent names the same float. *)
Lemma dyadic32_double (V e : Z) :
  0 <= 2 * V < 2 ^ 24 -> -148 <= e <= 104 -> dyadic32 (2 * V) (e - 1) = dyadic32 V e.
Proof.
  intros HV He. destruct (Z.eq_dec V 0) as [->|Hn]; [reflexivity|].
  rewrite !dyadic32_canon by lia.
  apply (canon_same _ _ format32) with (lo := e - 1); try apply representable32; try lia.
  replace (e - 1 - (e - 1)) with 0 by lia. replace (e - (e - 1)) with 1 by lia. lia.
Qed.

Lemma add32_zero_r (x : spec_float) :
  nonneg_finite x = true -> F32.add x (S754_zero false) = x.
Proof. apply (add_zero_r _ _ format32). Qed.

Lemma add32_dyadic (Vx ex Vy ey V e lo : Z) :
  0 <= Vx < 2 ^ 24 -> 0 <= Vy < 2 ^ 24 -> 0 <= V < 2 ^ 24 ->
  -149 <= ex <= 104 -> -149 <= ey <= 104 -> -149 <= e <= 104 ->
  lo <= ex -> lo <= ey -> lo <= e ->
  Vx * 2 ^ (ex - lo) + Vy * 2 ^ (ey - lo) = V * 2 ^ (e - lo) ->
  F32.add (dyadic32 Vx ex) (dyadic32 Vy ey) = dyadic32 V e.
Proof.
  intros. apply (add_dyadic _ _ format32) with (lo := lo); auto; try lia;
    intros; apply representable32; lia.
Qed.

Lemma add64_dyadic (Vx ex Vy ey V e lo : Z) :
  0 <= Vx < 2 ^ 53 -> 0 <= Vy < 2 ^ 53 -> 0 <= V < 2 ^ 53 ->
  -1074 <= ex <= 971 -> -1074 <= ey <= 971 -> -1074 <= e <= 971 ->
  lo <= ex -> lo <= ey -> lo <= e ->
  Vx * 2 ^ (ex - lo) + Vy * 2 ^ (ey - lo) = V * 2 ^ (e - lo) ->
  F64.add (dyadic64 Vx ex) (dyadic64 Vy ey) = dyadic64 V e.
Proof.
  intros. apply (add_dyadic _ _ format64) with (lo := lo); auto; try lia;
    intros; apply representable64; lia.
Qed.

(** The factor of the fractional loop: multiplying 0 or 1 by it and halving
    it are exact down to 2^-25. *)
Lemma factor_facts :
  forallb (fun i =>
      sf_eqb (F32.mul (F32.of_int 0) (dyadic32 1 (- (i + 1)))) (S754_zero false)
      && sf_eqb (F32.mul (F32.of_int 1) (dyadic32 1 (- (i + 1)))) (dyadic32 1 (- (i + 1)))
      && sf_eqb (F32.div (dyadic32 1 (- (i + 1))) (F32.of_int 2)) (dyadic32 1 (- (i + 1) - 1)))
    (below 24) = true.
Proof. vm_compute. reflexivity. Qed.

Lemma is_bit_cases (c : ascii) : is_bit c = true -> c = "0"%char \/ c = "1"%char.
Proof.
  unfold is_bit. intros H. apply orb_prop in H as [H|H]; apply Ascii.eqb_eq in H; auto.
Qed.

Lemma parse_fractional_exact (rest : string) :
  forall i K,
    binary_string rest = true -> 0 <= i -> 0 <= K < 2 ^ i ->
    i + Z.of_nat (String.length rest) <= 24 ->
    parse_fractional rest (dyadic32 K (- i)) (dyadic32 1 (- (i + 1)))
    = dyadic32 (bits_from rest K) (- (i + Z.of_nat (String.length rest))).
Proof.
  induction rest as [|c rest IH]; intros i K Hb Hi HK Hlen.
  - simpl. f_equal. lia.
  - cbn [binary_string] in Hb. apply andb_prop in Hb as [Hc Hb].
    cbn [String.length] in Hlen. rewrite Nat2Z.inj_succ in Hlen.
    assert (Hp : 2 ^ i <= 2 ^ 23) by (apply Z.pow_le_mono_r; lia).
    assert (Hp1 : 2 ^ (i + 1) = 2 * 2 ^ i) by (rewrite Z.pow_add_r by lia; lia).
    pose proof (below_spec _ _ factor_facts i ltac:(simpl; lia)) as F.
    apply andb_prop in F as [F Fdiv]. apply andb_prop in F as [Fm0 Fm1].
    apply sf_eqb_eq in Fm0, Fm1, Fdiv.
    cbn [parse_fractional bits_from String.length]. rewrite Nat2Z.inj_succ.
    rewrite Fdiv.
    replace (- (i + 1) - 1) with (- ((i + 1) + 1)) by lia.
    replace (- (i + Z.succ (Z.of_nat (String.length rest))))
      with (- ((i + 1) + Z.of_nat (String.length rest))) by lia.
    destruct (is_bit_cases c Hc) as [-> | ->].
    + change (char_code "0" - char_code "0") with 0. rewrite Fm0.
      rewrite add32_zero_r by (apply dyadic32_nonneg_finite; lia).
      rewrite Z.add_0_r.
      rewrite <- (dyadic32_double K (- i)) by lia.
      replace (- i - 1) with (- (i + 1)) by lia.
      apply IH; auto; lia.
    + change (char_code "1" - char_code "0") with 1. rewrite Fm1.
      rewrite (add32_dyadic K (- i) 1 (- (i + 1)) (2 * K + 1) (- (i + 1)) (- (i + 1)));
        try lia.
      * apply IH; auto; lia.
      * replace (- i - - (i + 1)) with 1 by lia. rewrite Z.sub_diag. lia.
Qed.

Lemma bits_from_bound (s : string) :
  forall K, binary_string s = true -> 0 <= K ->
    K * 2 ^ Z.of_nat (String.length s) <= bits_from s K
    < (K + 1) * 2 ^ Z.of_nat (String.length s).
Proof.
  induction s as [|c s IH]; intros K Hb HK.
  - simpl. lia.
  - cbn [binary_string] in Hb. apply andb_prop in Hb as [Hc Hb].
    cbn [bits_from String.length]. rewrite Nat2Z.inj_succ, Z.pow_succ_r by lia.
    destruct (is_bit_cases c Hc) as [-> | ->].
    + change (char_code "0" - char_code "0") with 0.
      specialize (IH (2 * K + 0) Hb ltac:(lia)). nia.
    + change (char_code "1" - char_code "0") with 1.
      specialize (IH (2 * K + 1) Hb ltac:(lia)). nia.
Qed.

Lemma bits_value_bound (s : string) :
  binary_string s = true -> 0 <= bits_value s < 2 ^ Z.of_nat (String.length s).
Proof. intros H. pose proof (bits_from_bound s 0 H). unfold bits_value. lia. Qed.

(** Fractional mode is exact on up to 24 binary digits: the result is the
    float [bits_value s / 2 ^ length s]. *)
Lemma parse_bits_fractional_exact (s : string) :
  binary_string s = true -> Z.of_nat (String.length s) <= 24 ->
  parse_bits s true = dyadic32 (bits_value s) (- Z.of_nat (String.length s)).
Proof.
  intros Hb Hlen. unfold parse_bits, bits_value. cbn [negb].
  change (S754_zero false) with (dyadic32 0 (- 0)).
  change half with (dyadic32 1 (- (0 + 1))).
  rewrite parse_fractional_exact by (auto; simpl; lia). reflexivity.
Qed.

(** Promoting an exact [float] to [double] keeps its value. *)
Lemma of_float_dyadic (V e : Z) :
  0 <= V < 2 ^ 24 -> -149 <= e <= 104 ->
  F64.of_float (dyadic32 V e) = dyadic64 V e.
Proof.
  intros HV He. destruct (Z.eq_dec V 0) as [->|Hn]; [reflexivity|].
  assert (HR : representable F32.prec F32.emax V e) by (apply representable32; lia).
  assert (HR64 : representable F64.prec F64.emax V e) by (apply representable64; lia).
  rewrite dyadic32_canon by lia.
  unfold dyadic64. rewrite (normalize_pos _ _ format64) by exact HR64.
  unfold canon at 1. cbn [F64.of_float].
  destruct (cexp_le _ _ format32 V e HR) as [Hc _].
  apply (canon_value _ _ format64) with (lo := cexp F32.prec F32.emax V e); auto; try lia.
  rewrite (canon_mantissa _ _ format32) by exact HR.
  rewrite Z.sub_diag. lia.
Qed.

Lemma log2_between (n W : Z) : 0 <= n -> 2 ^ n <= W < 2 ^ (n + 1) -> Z.log2 W = n.
Proof. intros Hn HW. apply Z.log2_unique; [exact Hn|]. rewrite <- Z.add_1_r. exact HW. Qed.

Lemma pow2_le_23 (n : Z) : 0 <= n <= 23 -> 0 < 2 ^ n /\ 2 * 2 ^ n <= 2 ^ 24.
Proof.
  intros Hn. pose proof (pow2_pos n). split; [lia|].
  replace (2 * 2 ^ n) with (2 ^ (n + 1)) by (rewrite Z.pow_add_r by lia; lia).
  apply Z.pow_le_mono_r; lia.
Qed.

(** The significand [1.0 + fraction], in [double], for a fraction of [n]
    binary digits spelling the integer [F]. *)
Lemma frac_part_exact (n F : Z) :
  0 <= n <= 23 -> 0 <= F < 2 ^ n ->
  F64.add F64.one (F64.of_float (dyadic32 F (- n)))
  = canon F64.prec F64.emax false (2 ^ n + F) (- n).
Proof.
  intros Hn HF. destruct (pow2_le_23 n Hn) as [Hp0 Hp].
  rewrite of_float_dyadic by lia.
  change F64.one with (dyadic64 1 0).
  rewrite (add64_dyadic 1 0 F (- n) (2 ^ n + F) (- n) (- n)); try lia.
  - unfold dyadic64. apply (normalize_pos _ _ format64). apply representable64; lia.
  - rewrite Z.sub_diag. replace (0 - - n) with n by lia. lia.
Qed.

(** Scaling the significand by a power of two in the range of the normal
    exponents is exact. *)
Lemma scale_exact (s : bool) (k n F : Z) :
  -126 <= k <= 127 -> 0 <= n <= 23 -> 0 <= F < 2 ^ n ->
  F64.mul (S754_finite s 4503599627370496 (k - 52))
          (canon F64.prec F64.emax false (2 ^ n + F) (- n))
  = canon F64.prec F64.emax s (2 ^ n + F) (k - n).
Proof.
  intros Hk Hn HF. destruct (pow2_le_23 n Hn) as [Hp0 Hp].
  assert (Hlog : Z.log2 (2 ^ n + F) = n)
    by (apply log2_between; [lia|rewrite Z.pow_add_r by lia; lia]).
  assert (HR : representable F64.prec F64.emax (2 ^ n + F) (- n))
    by (apply representable64; lia).
  assert (HR' : representable F64.prec F64.emax (2 ^ n + F) (k - n))
    by (apply representable64; lia).
  assert (Hc : cexp F64.prec F64.emax (2 ^ n + F) (- n) = -52).
  { unfold cexp, fexp, emin, F64.prec, F64.emax. rewrite Hlog. lia. }
  assert (Hc' : cexp F64.prec F64.emax (2 ^ n + F) (k - n) = k - 52).
  { unfold cexp, fexp, emin, F64.prec, F64.emax. rewrite Hlog. lia. }
  pose proof (canon_mantissa _ _ format64 _ _ HR) as Hm.
  unfold canon at 1. unfold F64.mul.
  replace s with (xorb s false) at 2 by (destruct s; reflexivity).
  apply (mul_value _ _ format64) with (lo := k - 104); auto; try lia.
  rewrite Hm, Hc.
  replace (k - 52 + -52 - (k - 104)) with 0 by lia.
  replace (k - n - (k - 104)) with (52 + (- n - -52)) by lia.
  rewrite pow2_split by lia. change (2 ^ 52) with 4503599627370496. lia.
Qed.

(** Sign and exponent: for a sign of 0 or 1 and an exponent field below 255,
    the tests of [convert_ieee_float] and the product [sign_part * exp_part]
    come out as expected. *)
Lemma sign_exponent_facts :
  forallb (fun e =>
    forallb (fun sg =>
      let exponent := F32.of_int e in
      let exp_part :=
        if SFeqb exponent (F32.of_int 0)
        then pow_two (F64.of_int (1 - exponent_size))
        else pow_two (F64.of_float (F32.sub exponent (F32.of_int exponent_size))) in
      negb (SFeqb exponent (F32.of_int 255))
      && sf_eqb (F64.mul (pow_neg_one (F64.of_float (F32.of_int sg))) exp_part)
                (S754_finite (sg =? 1) 4503599627370496 (Z.max e 1 - 127 - 52)))
      (below 2))
    (below 255) = true.
Proof. vm_compute. reflexivity. Qed.

(** What [convert_ieee_float] computes outside the special exponent: the
    [double] of sign [sg] and magnitude [(2^n + F) * 2^(max e 1 - 127 - n)],
    where the [n] fraction digits spell [F].  No operation rounds. *)
Lemma convert_exact (full_float : SplitFields) (sg e : Z) :
  let n := Z.of_nat (String.length (fraction_bits full_float)) in
  let F := bits_value (fraction_bits full_float) in
  parse_bits (sign_bits full_float) false = F32.of_int sg -> 0 <= sg <= 1 ->
  parse_bits (exponent_bits full_float) false = F32.of_int e -> 0 <= e <= 254 ->
  binary_string (fraction_bits full_float) = true -> n <= 23 ->
  convert_ieee_float full_float
  = (canon F64.prec F64.emax (sg =? 1) (2 ^ n + F) (Z.max e 1 - exponent_size - n),
     [Printf_decimal (F32.of_int sg) (F32.of_int e) (dyadic32 F (- n))]).
Proof.
  intros n F Hs Hsg He Hrange Hb Hn.
  pose proof (bits_value_bound _ Hb) as HF. fold n F in HF.
  pose proof (below_spec _ _ sign_exponent_facts e ltac:(simpl; lia)) as Fe.
  cbv beta in Fe.
  pose proof (below_spec _ _ Fe sg ltac:(simpl; lia)) as Fs.
  cbv beta zeta in Fs. apply andb_prop in Fs as [F255 Fmul].
  apply negb_true_iff in F255. apply sf_eqb_eq in Fmul.
  unfold convert_ieee_float. cbv zeta.
  rewrite Hs, He, F255.
  rewrite parse_bits_fractional_exact by (auto; fold n; lia). fold n F.
  rewrite frac_part_exact by lia.
  destruct (SFeqb (F32.of_int e) (F32.of_int 0)); rewrite Fmul;
    replace (Z.max e 1 - 127 - 52) with ((Z.max e 1 - 127) - 52) by lia;
    rewrite scale_exact by lia; reflexivity.
Qed.

Lemma all_bitstrings_complete (s : string) :
  binary_string s = true -> In s (all_bitstrings (String.length s)).
Proof.
  induction s as [|c s IH]; intros Hb.
  - left; reflexivity.
  - cbn [binary_string] in Hb. apply andb_prop in Hb as [Hc Hb].
    cbn [String.length all_bitstrings]. apply in_flat_map. exists s. split; [auto|].
    destruct (is_bit_cases c Hc) as [-> | ->]; simpl; auto.
Qed.

(** Integer mode on the 1-bit and 8-bit fields, by running every string. *)
Lemma integer_fields_check :
  forallb (fun n =>
    forallb (fun s => sf_eqb (parse_bits s false) (F32.of_int (bits_value s)))
            (all_bitstrings n))
    [1%nat; 8%nat] = true.
Proof. vm_compute. reflexivity. Qed.

Lemma parse_bits_integer_exact (s : string) :
  binary_string s = true -> String.length s = 1%nat \/ String.length s = 8%nat ->
  parse_bits s false = F32.of_int (bits_value s).
Proof.
  intros Hb Hlen. pose proof integer_fields_check as H.
  rewrite forallb_forall in H.
  assert (Hin : In (String.length s) [1%nat; 8%nat])
    by (destruct Hlen as [E|E]; rewrite E; simpl; auto).
  specialize (H (String.length s) Hin).
  rewrite forallb_forall in H.
  apply sf_eqb_eq, H, all_bitstrings_complete, Hb.
Qed.

(** ** Rational values *)

Lemma SF2Q_dyadic32 (V e : Z) :
  0 <= V < 2 ^ 24 -> -149 <= e <= 104 ->
  (SF2Q (dyadic32 V e) == inject_Z V * 2 ^ e)%Q.
Proof.
  intros HV He. destruct (Z.eq_dec V 0) as [->|Hn].
  - simpl. ring.
  - rewrite dyadic32_canon by lia.
    apply (SF2Q_canon _ _ false); [exact format32 | apply representable32; lia].
Qed.

(** * The field splitter *)

Lemma store_end (c : ascii) (pre : buffer) (x : option ascii) (rest : buffer) :
  store (List.length pre) c (pre ++ x :: rest) = pre ++ Some c :: rest.
Proof. induction pre as [|h pre IH]; simpl; [reflexivity|]. rewrite IH. reflexivity. Qed.

Lemma store_at (i : nat) (c : ascii) (pre : buffer) (x : option ascii) (rest : buffer) :
  List.length pre = i -> store i c (pre ++ x :: rest) = pre ++ Some c :: rest.
Proof. intros <-. apply store_end. Qed.

Lemma skipn_cons_nth (input : array) (o : nat) (c : ascii) :
  nth_error input o = Some c -> skipn o input = c :: skipn (S o) input.
Proof.
  revert o. induction input as [|a input IH]; intros [|o] H; simpl in *; try discriminate.
  - congruence.
  - rewrite (IH o H). destruct input; reflexivity.
Qed.

(** With a non-null pointer and [n] characters left in the array, the loop
    copies exactly the next [n] characters, whatever they are. *)
Lemma copy_bits_full (input : array) (n : nat) :
  forall o (pre : buffer) k,
    (o + n <= List.length input)%nat ->
    copy_bits input n (List.length pre) (Ptr o) (pre ++ repeat None (n + k))
    = Some (pre ++ map Some (firstn n (skipn o input)) ++ repeat None k, Ptr (o + n)).
Proof.
  induction n as [|n IH]; intros o pre k Hlen.
  - simpl. rewrite Nat.add_0_r. reflexivity.
  - cbn [copy_bits is_null load incr].
    destruct (nth_error input o) as [c|] eqn:E.
    2:{ apply nth_error_None in E. lia. }
    cbn [Nat.add repeat]. rewrite store_end.
    replace (pre ++ Some c :: repeat None (n + k))
      with ((pre ++ [Some c]) ++ repeat None (n + k))
      by (rewrite <- app_assoc; reflexivity).
    replace (S (List.length pre)) with (List.length (pre ++ [Some c]))
      by (rewrite length_app; simpl; lia).
    rewrite IH by lia.
    rewrite (skipn_cons_nth input o c E). cbn [firstn map].
    rewrite <- app_assoc. cbn [app].
    replace (S o + n)%nat with (o + S n)%nat by lia. reflexivity.
Qed.

Lemma c_string_terminated (l : list ascii) (rest : buffer) :
  forallb is_bit l = true ->
  c_string (map Some l ++ Some zero :: rest) = Some (string_of_list_ascii l).
Proof.
  induction l as [|c l IH]; intros H.
  - reflexivity.
  - cbn [forallb] in H. apply andb_prop in H as [Hc H].
    cbn [map app c_string string_of_list_ascii]. rewrite (IH H).
    destruct (is_bit_cases c Hc) as [-> | ->]; reflexivity.
Qed.

Lemma substring_firstn_skipn (s : string) :
  forall n m, string_of_list_ascii (firstn m (skipn n (list_ascii_of_string s)))
              = substring n m s.
Proof.
  induction s as [|c s IH]; intros n m.
  - destruct n, m; reflexivity.
  - destruct n as [|n].
    + destruct m as [|m]; [reflexivity|].
      cbn. f_equal. apply (IH 0%nat m).
    + cbn. apply IH.
Qed.

Lemma firstn_O_of_sub {A : Type} (a b : nat) (l : list A) :
  (a - b = 0)%nat -> firstn (a - b) l = [].
Proof. intros ->. reflexivity. Qed.

Lemma binary_string_forallb (s : string) :
  binary_string s = forallb is_bit (list_ascii_of_string s).
Proof. induction s as [|c s IH]; simpl; [reflexivity|]. rewrite IH. reflexivity. Qed.

Lemma forallb_firstn {A : Type} (P : A -> bool) (n : nat) (l : list A) :
  forallb P l = true -> forallb P (firstn n l) = true.
Proof.
  revert n. induction l as [|a l IH]; intros [|n] H; simpl in *; auto.
  apply andb_prop in H as [Ha H]. rewrite Ha, (IH n H). reflexivity.
Qed.

Lemma forallb_skipn {A : Type} (P : A -> bool) (n : nat) (l : list A) :
  forallb P l = true -> forallb P (skipn n l) = true.
Proof.
  revert n. induction l as [|a l IH]; intros [|n] H; simpl in *; auto.
  apply andb_prop in H as [Ha H]. auto.
Qed.

Lemma length_list_ascii (s : string) :
  List.length (list_ascii_of_string s) = String.length s.
Proof. induction s; simpl; congruence. Qed.

Lemma binary_substring (s : string) (n m : nat) :
  binary_string s = true -> binary_string (substring n m s) = true.
Proof.
  intros H. rewrite <- substring_firstn_skipn, binary_string_forallb.
  rewrite list_ascii_of_string_of_list_ascii.
  apply forallb_firstn, forallb_skipn. rewrite <- binary_string_forallb. exact H.
Qed.

Lemma length_substring (s : string) :
  forall n m, (n + m <= String.length s)%nat -> String.length (substring n m s) = m.
Proof.
  induction s as [|c s IH]; intros n m H.
  - simpl in H. assert (n = 0%nat /\ m = 0%nat) as [-> ->] by lia. reflexivity.
  - destruct n as [|n].
    + destruct m as [|m]; [reflexivity|]. cbn. f_equal. apply IH. simpl in H. lia.
    + cbn. apply IH. simpl in H. lia.
Qed.

(** On 32 binary digits the three blocks hold character 0, characters 1-8
    and characters 9-31, each followed by its terminator. *)
Lemma split_exact (s : string) :
  String.length s = 32%nat -> binary_string s = true ->
  exists w,
    split_binary_float heap_ok (input_array s) (Ptr 0)
    = Some (Some w, [Printf_binary (Some (substring 0 1 s)) (Some (substring 1 8 s))
                                   (Some (substring 9 23 s))])
    /\ fields_of w
       = Some (mkFields (substring 0 1 s) (substring 1 8 s) (substring 9 23 s)).
Proof.
  intros Hlen Hb.
  set (l := list_ascii_of_string s).
  assert (Hl : List.length l = 32%nat) by (unfold l; rewrite length_list_ascii; exact Hlen).
  assert (Hbl : forallb is_bit l = true) by (unfold l; rewrite <- binary_string_forallb; exact Hb).
  assert (Hin : List.length (input_array s) = 33%nat)
    by (unfold input_array; fold l; rewrite length_app, Hl; reflexivity).
  destruct l as [|c0 l'] eqn:El; [discriminate|].
  assert (Hc0 : is_bit c0 = true) by (cbn in Hbl; apply andb_prop in Hbl; tauto).
  assert (H0 : substring 0 1 s = String c0 EmptyString).
  { rewrite <- substring_firstn_skipn. fold l. rewrite El. reflexivity. }
  assert (H1 : c_string (map Some (firstn 8 (skipn 1 (input_array s))) ++ [Some zero])
               = Some (substring 1 8 s)).
  { unfold input_array. fold l. rewrite <- El in *.
    rewrite skipn_app, firstn_app, length_skipn, Hl.
    rewrite firstn_O_of_sub by reflexivity. rewrite app_nil_r.
    rewrite c_string_terminated by (apply forallb_firstn, forallb_skipn; exact Hbl).
    unfold l. rewrite substring_firstn_skipn. reflexivity. }
  assert (H2 : c_string (map Some (firstn 23 (skipn 9 (input_array s))) ++ [Some zero])
               = Some (substring 9 23 s)).
  { unfold input_array. fold l. rewrite <- El in *.
    rewrite skipn_app, firstn_app, length_skipn, Hl.
    rewrite firstn_O_of_sub by reflexivity. rewrite app_nil_r.
    rewrite c_string_terminated by (apply forallb_firstn, forallb_skipn; exact Hbl).
    unfold l. rewrite substring_firstn_skipn. reflexivity. }
  assert (Hw0 : c_string [Some c0; Some zero] = Some (substring 0 1 s)).
  { rewrite H0. destruct (is_bit_cases c0 Hc0) as [-> | ->]; reflexivity. }
  eexists. split.
  - unfold split_binary_float, heap_ok. cbn [negb load incr].
    replace (nth_error (input_array s) 0) with (Some c0)
      by (unfold input_array; fold l; rewrite El; reflexivity).
    change (malloc_buffer 9) with (@nil (option ascii) ++ repeat None (8 + 1)).
    change 0%nat with (List.length (@nil (option ascii))) at 2.
    rewrite copy_bits_full by (rewrite Hin; simpl; lia).
    cbn [app repeat Nat.add].
    rewrite (store_at 8) by (rewrite length_map, length_firstn, length_skipn, Hin; reflexivity).
    change (malloc_buffer 24) with (@nil (option ascii) ++ repeat None (23 + 1)).
    change 0%nat with (List.length (@nil (option ascii))) at 2.
    rewrite copy_bits_full by (rewrite Hin; simpl; lia).
    cbn [app repeat Nat.add].
    rewrite (store_at 23) by (rewrite length_map, length_firstn, length_skipn, Hin; reflexivity).
    cbn [malloc_buffer repeat store]. rewrite Hw0, H1, H2. reflexivity.
  - unfold fields_of. cbn [field0 field1 field2 malloc_buffer repeat store].
    rewrite Hw0, H1, H2. reflexivity.
Qed.

(** The whole pipeline on 32 binary digits: the converter runs on the three
    substrings. *)
Lemma decode_exact (s : string) :
  String.length s = 32%nat -> binary_string s = true ->
  decoded s
  = Some (fst (convert_ieee_float
                 (mkFields (substring 0 1 s) (substring 1 8 s) (substring 9 23 s)))).
Proof.
  intros Hlen Hb. destruct (split_exact s Hlen Hb) as [w [Hs Hf]].
  unfold decoded, decode. rewrite Hs, Hf.
  destruct (convert_ieee_float _) as [d out]. reflexivity.
Qed.

Lemma well_formed_fields (f : SplitFields) :
  well_formed f = true ->
  (binary_string (sign_bits f) = true /\ String.length (sign_bits f) = 1%nat)
  /\ (binary_string (exponent_bits f) = true /\ String.length (exponent_bits f) = 8%nat)
  /\ (binary_string (fraction_bits f) = true /\ String.length (fraction_bits f) = 23%nat).
Proof.
  unfold well_formed. intros H.
  repeat (apply andb_prop in H as [H ?]).
  repeat match goal with E : Nat.eqb _ _ = true |- _ => apply Nat.eqb_eq in E end.
  repeat split; assumption.
Qed.

(** The value of [convert_ieee_float] on well-formed fields whose exponent
    is not 255. *)
Lemma convert_well_formed (f : SplitFields) :
  well_formed f = true -> bits_value (exponent_bits f) <> 255 ->
  fst (convert_ieee_float f)
  = canon F64.prec F64.emax (bits_value (sign_bits f) =? 1)
      (2 ^ 23 + bits_value (fraction_bits f))
      (Z.max (bits_value (exponent_bits f)) 1 - exponent_size - 23).
Proof.
  intros Hw He.
  destruct (well_formed_fields f Hw) as [[Hs Hsl] [[Hx Hxl] [Hf Hfl]]].
  pose proof (bits_value_bound _ Hs) as Bs. rewrite Hsl in Bs.
  pose proof (bits_value_bound _ Hx) as Bx. rewrite Hxl in Bx.
  change (2 ^ Z.of_nat 1) with 2 in Bs. change (2 ^ Z.of_nat 8) with 256 in Bx.
  assert (Ps : parse_bits (sign_bits f) false = F32.of_int (bits_value (sign_bits f)))
    by (apply parse_bits_integer_exact; auto).
  assert (Px : parse_bits (exponent_bits f) false = F32.of_int (bits_value (exponent_bits f)))
    by (apply parse_bits_integer_exact; auto).
  assert (Hn : Z.of_nat (String.length (fraction_bits f)) <= 23)
    by (rewrite Hfl; discriminate).
  pose proof (convert_exact f _ _ Ps ltac:(lia) Px ltac:(lia) Hf Hn) as H.
  rewrite Hfl in H. rewrite H. reflexivity.
Qed.

Lemma convert_special (f : SplitFields) :
  SFeqb (parse_bits (exponent_bits f) false) (F32.of_int 255) = true ->
  convert_ieee_float f
  = (S754_zero false,
     [Printf_decimal (parse_bits (sign_bits f) false) (parse_bits (exponent_bits f) false)
                     (parse_bits (fraction_bits f) true);
      Perror ("Exponent is 255" ++ newline)]).
Proof. intros H. unfold convert_ieee_float. cbv zeta. rewrite H. reflexivity. Qed.

Lemma SFeqb_refl_finite (s : bool) (m : positive) (e : Z) :
  SFeqb (S754_finite s m e) (S754_finite s m e) = true.
Proof.
  unfold SFeqb, SFcompare. rewrite Z.compare_refl, Pos.compare_cont_refl.
  destruct s; reflexivity.
Qed.

(** ** The factor of the fractional loop never leaves the non-negative floats *)

Lemma halved_small :
  forallb (fun k => nonneg_finite (halved k half)) (seq 0 151) = true.
Proof. vm_compute. reflexivity. Qed.

Lemma halved_underflow : halved 150 half = S754_zero false.
Proof. vm_compute. reflexivity. Qed.

Lemma halved_zero (k : nat) : halved (150 + k) half = S754_zero false.
Proof.
  induction k as [|k IH].
  - rewrite Nat.add_0_r. exact halved_underflow.
  - rewrite Nat.add_succ_r. cbn [halved]. rewrite IH. reflexivity.
Qed.

Lemma halved_nonneg (k : nat) : nonneg_finite (halved k half) = true.
Proof.
  destruct (Nat.lt_ge_cases k 151) as [Hlt|Hge].
  - pose proof halved_small as H. rewrite forallb_forall in H.
    apply H, in_seq. lia.
  - replace k with (150 + (k - 150))%nat by lia. rewrite halved_zero. reflexivity.
Qed.

Lemma mul32_zero_l (y : spec_float) :
  nonneg_finite y = true -> F32.mul (S754_zero false) y = S754_zero false.
Proof. destruct y as [[]| | |[] m e]; simpl; try discriminate; reflexivity. Qed.

Lemma parse_fractional_zeros (n : nat) :
  forall k, parse_fractional (zeros n) half (halved k half) = half.
Proof.
  induction n as [|n IH]; intros k; [reflexivity|].
  cbn [zeros parse_fractional].
  change (char_code "0" - char_code "0") with 0.
  change (F32.of_int 0) with (S754_zero false).
  rewrite mul32_zero_l by apply halved_nonneg.
  change (F32.add half (S754_zero false)) with half.
  apply (IH (S k)).
Qed.

Lemma parse_integer_zeros (n : nat) :
  parse_integer (zeros n) (S754_zero false) = S754_zero false.
Proof. induction n as [|n IH]; [reflexivity|]. cbn [zeros parse_integer]. exact IH. Qed.

Lemma well_formed_intro (s e f : string) :
  binary_string s = true -> String.length s = 1%nat ->
  binary_string e = true -> String.length e = 8%nat ->
  binary_string f = true -> String.length f = 23%nat ->
  well_formed (mkFields s e f) = true.
Proof.
  intros Hs Ls He Le Hf Lf. unfold well_formed. cbn [sign_bits exponent_bits fraction_bits].
  rewrite Hs, Ls, He, Le, Hf, Lf. reflexivity.
Qed.

Lemma exponent_not_special (e : Z) :
  0 <= e <= 254 -> SFeqb (F32.of_int e) (F32.of_int 255) = false.
Proof.
  intros He.
  pose proof (below_spec _ _ sign_exponent_facts e ltac:(simpl; lia)) as Fe.
  cbv beta in Fe.
  pose proof (below_spec _ _ Fe 0 ltac:(simpl; lia)) as Fs.
  cbv beta zeta in Fs. apply andb_prop in Fs as [F255 _].
  apply negb_true_iff in F255. exact F255.
Qed.

Lemma Qpow2_gt0 (z : Z) : (0 < 2 ^ z)%Q.
Proof. apply Qpower_0_lt. reflexivity. Qed.

(** The magnitude of a float with a 24-bit significand [W >= 2^23] scaled
    into the normal range is at least 2^-126. *)
Lemma SF2Q_canon_lower (s : bool) (W k : Z) :
  2 ^ 23 <= W < 2 ^ 24 -> -149 <= k <= 104 ->
  (2 ^ (k + 23) <= Qabs (SF2Q (canon F64.prec F64.emax s W k)))%Q.
Proof.
  intros HW Hk.
  rewrite (SF2Q_canon _ _ s W k format64) by (apply representable64; lia).
  rewrite Qabs_Qmult.
  rewrite (Qabs_pos (2 ^ k)) by (apply Qlt_le_weak, Qpow2_gt0).
  assert (Ha : (Qabs (inject_Z (cond_Zopp s W)) == inject_Z W)%Q).
  { destruct s; cbn [cond_Zopp].
    - rewrite inject_Z_opp, Qabs_opp. apply Qabs_pos.
      change (inject_Z 0 <= inject_Z W)%Q. rewrite <- Zle_Qle. lia.
    - apply Qabs_pos. change (inject_Z 0 <= inject_Z W)%Q. rewrite <- Zle_Qle. lia. }
  rewrite Ha.
  rewrite (Z.add_comm k 23), Qpow2_add.
  apply Qmult_le_compat_r; [|apply Qlt_le_weak, Qpow2_gt0].
  rewrite <- (Qpow2_inject 23) by lia. rewrite <- Zle_Qle. lia.
Qed.

Lemma substring_0_0 (s : string) : substring 0 0 s = EmptyString.
Proof. destruct s; reflexivity. Qed.

(** With the sign bit 0 and an exponent field below 255 the result is the
    finite [double] [2^(max e 1 - 127) * (1 + fraction)]: the leading 1 is
    added for every exponent, 0 included. *)
Lemma convert_value (full_float : SplitFields) (e : Z) :
  sign_bits full_float = "0"%string ->
  parse_bits (exponent_bits full_float) false = F32.of_int e -> 0 <= e <= 254 ->
  binary_string (fraction_bits full_float) = true ->
  String.length (fraction_bits full_float) = 23%nat ->
  let fraction := parse_bits (fraction_bits full_float) true in
  let r := fst (convert_ieee_float full_float) in
  is_finite r = true
  /\ (SF2Q r == 2 ^ (Z.max e 1 - 127) * (1 + SF2Q fraction))%Q
  /\ (SF2Q fraction == inject_Z (bits_value (fraction_bits full_float)) / 2 ^ 23)%Q.
Proof.
  intros Hs He Hrange Hb Hlen fraction r.
  pose proof (bits_value_bound _ Hb) as HF. rewrite Hlen in HF.
  change (Z.of_nat 23) with 23 in HF.
  set (F := bits_value (fraction_bits full_float)) in *.
  set (k := Z.max e 1 - 127).
  assert (Hk : -126 <= k <= 127) by (unfold k; lia).
  assert (Hr : r = canon F64.prec F64.emax false (2 ^ 23 + F) (k - 23)).
  { assert (Ps : parse_bits (sign_bits full_float) false = F32.of_int 0)
      by (rewrite Hs; reflexivity).
    assert (Hn : Z.of_nat (String.length (fraction_bits full_float)) <= 23)
      by (rewrite Hlen; discriminate).
    pose proof (convert_exact full_float 0 e Ps ltac:(lia) He ltac:(lia) Hb Hn) as H.
    rewrite Hlen in H. unfold r. rewrite H. reflexivity. }
  assert (Hf : (SF2Q fraction == inject_Z F * 2 ^ (-23))%Q).
  { assert (Hn : Z.of_nat (String.length (fraction_bits full_float)) <= 24)
      by (rewrite Hlen; discriminate).
    unfold fraction. rewrite (parse_bits_fractional_exact _ Hb Hn).
    rewrite Hlen. fold F. change (- Z.of_nat 23) with (-23).
    apply SF2Q_dyadic32; lia. }
  split; [rewrite Hr; reflexivity|]. split.
  - rewrite Hf, Hr.
    rewrite (SF2Q_canon _ _ false _ _ format64) by (apply representable64; lia).
    cbn [cond_Zopp]. rewrite inject_Z_plus.
    replace (k - 23) with (k + (-23)) by lia. rewrite Qpow2_add.
    assert (H1 : (inject_Z (2 ^ 23) * 2 ^ (-23) == 1)%Q) by reflexivity.
    transitivity (2 ^ k * (inject_Z (2 ^ 23) * 2 ^ (-23) + inject_Z F * 2 ^ (-23)))%Q.
    + ring.
    + rewrite H1. reflexivity.
  - rewrite Hf. reflexivity.
Qed.

(** The subnormal branch on every fraction: the exponent is 1 - 127 and the
    significand is still [1 + fraction]. *)
Lemma subnormal_value (full_float : SplitFields) :
  sign_bits full_float = "0"%string ->
  parse_bits (exponent_bits full_float) false = F32.of_int 0 ->
  binary_string (fraction_bits full_float) = true ->
  String.length (fraction_bits full_float) = 23%nat ->
  (SF2Q (fst (convert_ieee_float full_float))
   == 2 ^ (1 - 127) * (1 + SF2Q (parse_bits (fraction_bits full_float) true)))%Q.
Proof.
  intros Hs He Hb Hlen.
  exact (proj1 (proj2 (convert_value full_float 0 Hs He ltac:(lia) Hb Hlen))).
Qed.

(** * The claims of the specification *)

(** ** C3: the special exponent *)

(** C3. Whenever the exponent field parses to 255, whatever the sign and
    fraction fields hold, [convert_ieee_float] reports the error with
    [perror] and returns the sentinel +0.0: the result is neither an
    infinity nor a NaN. *)
Theorem special_exponent_sentinel (full_float : SplitFields) :
  SFeqb (parse_bits (exponent_bits full_float) false) (F32.of_int 255) = true ->
  fst (convert_ieee_float full_float) = S754_zero false
  /\ is_finite (fst (convert_ieee_float full_float)) = true
  /\ In (Perror ("Exponent is 255" ++ newline)) (snd (convert_ieee_float full_float)).
Proof.
  intros H. rewrite (convert_special full_float H). cbn [fst snd].
  repeat split. right. left. reflexivity.
Qed.

Lemma special_exponent_sentinel_witness :
  let full_float := mkFields "1" "11111111" "10100000000000000000001" in
  SFeqb (parse_bits (exponent_bits full_float) false) (F32.of_int 255) = true
  /\ (fst (convert_ieee_float full_float) = S754_zero false
      /\ is_finite (fst (convert_ieee_float full_float)) = true
      /\ In (Perror ("Exponent is 255" ++ newline)) (snd (convert_ieee_float full_float))).
Proof.
  intros full_float. split.
  - vm_compute. reflexivity.
  - apply (special_exponent_sentinel full_float). vm_compute. reflexivity.
Defined.

(** ** C1, C2: the subnormal case *)

(** C1. With the exponent field 00000000 and the fraction field
    1000...0 (one half), the source returns 1.5 * 2^-126: the branch for the
    subnormals changes the exponent only, and [frac_part] still carries the
    leading 1.  The specification asks for 0.5 * 2^-126. *)
Theorem subnormal_keeps_leading_one :
  let full_float := mkFields "0" "00000000" "10000000000000000000000" in
  let fraction := parse_bits (fraction_bits full_float) true in
  let r := fst (convert_ieee_float full_float) in
  SFeqb (parse_bits (exponent_bits full_float) false) (F32.of_int 0) = true
  /\ r = S754_finite false 6755399441055744 (-178)
  /\ (SF2Q fraction == 1 # 2)%Q
  /\ (SF2Q r == 2 ^ (1 - 127) * (1 + SF2Q fraction))%Q
  /\ ~ (SF2Q r == 2 ^ (1 - 127) * SF2Q fraction)%Q.
Proof.
  cbv zeta. split; [vm_compute; reflexivity|].
  split; [vm_compute; reflexivity|].
  split; [vm_compute; reflexivity|].
  split; [vm_compute; reflexivity|].
  intros H. vm_compute in H. discriminate H.
Qed.

(** C2. The all-zero input line decodes to 2^-126, the smallest normal
    [float], not to 0.0: it goes through the same branch as C1. *)
Theorem all_zero_input_is_not_zero :
  let r := S754_finite false 4503599627370496 (-178) in
  decoded "00000000000000000000000000000000" = Some r
  /\ (SF2Q r == 2 ^ (-126))%Q
  /\ SFeqb r (F64.of_int 0) = false.
Proof.
  cbv zeta. split; [vm_compute; reflexivity|].
  split; vm_compute; reflexivity.
Qed.

(** ** C6: known vectors *)

(** C6. The pipeline decodes 0100...0 to 2.0, 1100...0 to -2.0 and
    0011111110...0 to 1.0. *)
Theorem known_vectors :
  decoded "01000000000000000000000000000000" = Some (F64.of_int 2)
  /\ decoded "11000000000000000000000000000000" = Some (F64.of_int (-2))
  /\ decoded "00111111100000000000000000000000" = Some (F64.of_int 1).
Proof. repeat split; vm_compute; reflexivity. Qed.

(** ** C5: input shorter than 32 characters *)

(** C5. On the one-character line "1" the loops do not stop at the
    terminator: the condition tests the pointer, which is never null, so the
    8 exponent positions and the 23 fraction positions are all written, with
    the terminator itself and the 30 characters that follow it in the array;
    and when the array ends with the string, the call reads outside it. *)
Theorem short_input_read_past_terminator :
  let line := list_ascii_of_string "1" ++ [zero] in
  let junk := repeat "X"%char 31 in
  split_binary_float heap_ok (line ++ junk) (Ptr 0)
  = Some (Some (mkWhole [Some "1"%char; Some zero]
                        (Some zero :: map Some (repeat "X"%char 7) ++ [Some zero])
                        (map Some (repeat "X"%char 23) ++ [Some zero])),
          [Printf_binary (Some "1"%string) (Some EmptyString)
                         (Some "XXXXXXXXXXXXXXXXXXXXXXX"%string)])
  /\ split_binary_float heap_ok line (Ptr 0) = None.
Proof. split; vm_compute; reflexivity. Qed.

(** ** C8: parser properties *)

(** C8. In integer mode a string of [n] zeros, the empty string included,
    parses to 0; in fractional mode the digit 1 followed by [n] zeros parses
    to 0.5 for every [n]. *)
Theorem parser_properties (n : nat) :
  parse_bits (zeros n) false = S754_zero false
  /\ parse_bits (String "1" (zeros n)) true = half
  /\ (SF2Q half == 1 # 2)%Q.
Proof.
  split; [apply parse_integer_zeros|]. split; [|vm_compute; reflexivity].
  unfold parse_bits. cbn [negb parse_fractional].
  change (F32.add (S754_zero false) (F32.mul (F32.of_int (char_code "1" - char_code "0")) half))
    with half.
  apply (parse_fractional_zeros n 1).
Qed.

(** ** C9: the three fields partition the input *)

Lemma substring_partition (s : string) :
  String.length s = 32%nat ->
  (substring 0 1 s ++ substring 1 8 s ++ substring 9 23 s)%string = s.
Proof.
  intros H. rewrite <- !substring_firstn_skipn.
  rewrite <- (string_of_list_ascii_of_string s) at 4.
  rewrite <- length_list_ascii in H.
  set (l := list_ascii_of_string s) in *.
  do 32 (destruct l as [|? l]; [discriminate H|]).
  destruct l; [reflexivity | discriminate H].
Qed.

(** C9. On 32 binary digits [split_binary_float] returns three blocks whose
    strings are character 0, characters 1 to 8 and characters 9 to 31 of the
    input, and the three strings put end to end give the input back. *)
Theorem split_fields_partition (s : string) :
  String.length s = 32%nat -> binary_string s = true ->
  exists w out,
    split_binary_float heap_ok (input_array s) (Ptr 0) = Some (Some w, out)
    /\ fields_of w = Some (mkFields (substring 0 1 s) (substring 1 8 s) (substring 9 23 s))
    /\ (substring 0 1 s ++ substring 1 8 s ++ substring 9 23 s)%string = s.
Proof.
  intros Hlen Hb. destruct (split_exact s Hlen Hb) as [w [Hs Hf]].
  exists w. eexists. split; [exact Hs|]. split; [exact Hf|].
  apply substring_partition, Hlen.
Qed.

Lemma split_fields_partition_witness :
  let s := "01000001101000000000000000000001"%string in
  String.length s = 32%nat /\ binary_string s = true
  /\ exists w out,
       split_binary_float heap_ok (input_array s) (Ptr 0) = Some (Some w, out)
       /\ fields_of w = Some (mkFields (substring 0 1 s) (substring 1 8 s) (substring 9 23 s))
       /\ (substring 0 1 s ++ substring 1 8 s ++ substring 9 23 s)%string = s.
Proof.
  intros s. split; [reflexivity|]. split; [reflexivity|].
  apply (split_fields_partition s); reflexivity.
Defined.

(** ** C4: normal numbers *)

(** C4. With the sign bit 0, an exponent field that parses to [e] with
    [1 <= e <= 254] and 23 fraction bits, [convert_ieee_float] returns the
    finite [double] whose value is exactly [2^(e-127) * (1 + fraction)],
    where [fraction] is the fractional-mode parse of the fraction bits, itself
    exactly the integer they spell divided by [2^23]. *)
Theorem normal_value (full_float : SplitFields) (e : Z) :
  sign_bits full_float = "0"%string ->
  parse_bits (exponent_bits full_float) false = F32.of_int e -> 1 <= e <= 254 ->
  binary_string (fraction_bits full_float) = true ->
  String.length (fraction_bits full_float) = 23%nat ->
  let fraction := parse_bits (fraction_bits full_float) true in
  let r := fst (convert_ieee_float full_float) in
  is_finite r = true
  /\ (SF2Q r == 2 ^ (e - 127) * (1 + SF2Q fraction))%Q
  /\ (SF2Q fraction == inject_Z (bits_value (fraction_bits full_float)) / 2 ^ 23)%Q.
Proof.
  intros Hs He Hrange Hb Hlen.
  pose proof (convert_value full_float e Hs He ltac:(lia) Hb Hlen) as H.
  rewrite Z.max_l in H by lia. exact H.
Qed.

Lemma normal_value_witness :
  let full_float := mkFields "0" "10000010" "01000000000000000000000" in
  sign_bits full_float = "0"%string
  /\ parse_bits (exponent_bits full_float) false = F32.of_int 130
  /\ 1 <= 130 <= 254
  /\ binary_string (fraction_bits full_float) = true
  /\ String.length (fraction_bits full_float) = 23%nat
  /\ (is_finite (fst (convert_ieee_float full_float)) = true
      /\ (SF2Q (fst (convert_ieee_float full_float))
          == 2 ^ (130 - 127) * (1 + SF2Q (parse_bits (fraction_bits full_float) true)))%Q
      /\ (SF2Q (parse_bits (fraction_bits full_float) true)
          == inject_Z (bits_value (fraction_bits full_float)) / 2 ^ 23)%Q).
Proof.
  intros full_float.
  split; [reflexivity|]. split; [vm_compute; reflexivity|]. split; [lia|].
  split; [reflexivity|]. split; [reflexivity|].
  apply (normal_value full_float 130);
    [reflexivity | vm_compute; reflexivity | lia | reflexivity | reflexivity].
Defined.

(** ** C10: the sentinel is never a decoded value *)

(** C10. On well-formed fields the result compares equal to 0.0 exactly
    when the exponent field parses to 255; otherwise it is finite and its
    magnitude is at least 2^-126. *)
Theorem zero_iff_special_exponent (full_float : SplitFields) :
  well_formed full_float = true ->
  let r := fst (convert_ieee_float full_float) in
  let special := SFeqb (parse_bits (exponent_bits full_float) false) (F32.of_int 255) in
  (SFeqb r (F64.of_int 0) = true <-> special = true)
  /\ (special = false -> is_finite r = true /\ (2 ^ (-126) <= Qabs (SF2Q r))%Q).
Proof.
  intros Hw r special.
  destruct (well_formed_fields full_float Hw) as [[Hs Hsl] [[Hx Hxl] [Hf Hfl]]].
  pose proof (bits_value_bound _ Hx) as Bx. rewrite Hxl in Bx.
  change (2 ^ Z.of_nat 8) with 256 in Bx.
  pose proof (bits_value_bound _ Hf) as Bf. rewrite Hfl in Bf.
  change (Z.of_nat 23) with 23 in Bf.
  assert (Hparse : parse_bits (exponent_bits full_float) false
                   = F32.of_int (bits_value (exponent_bits full_float)))
    by (apply parse_bits_integer_exact; auto).
  destruct (Z.eq_dec (bits_value (exponent_bits full_float)) 255) as [E|E].
  - assert (Hsp : special = true) by (unfold special; rewrite Hparse, E; reflexivity).
    assert (Hr : r = S754_zero false)
      by (unfold r; rewrite (convert_special full_float Hsp); reflexivity).
    rewrite Hr, Hsp. split; [split; reflexivity | discriminate].
  - assert (Hsp : special = false)
      by (unfold special; rewrite Hparse; apply exponent_not_special; lia).
    assert (Hr : r = canon F64.prec F64.emax (bits_value (sign_bits full_float) =? 1)
                       (2 ^ 23 + bits_value (fraction_bits full_float))
                       (Z.max (bits_value (exponent_bits full_float)) 1 - exponent_size - 23))
      by (apply convert_well_formed; assumption).
    rewrite Hsp, Hr. split.
    + unfold canon. split; [|discriminate].
      destruct (bits_value (sign_bits full_float) =? 1); discriminate.
    + intros _. split; [reflexivity|].
      eapply Qle_trans; [|apply SF2Q_canon_lower; unfold exponent_size; lia].
      apply Qpower_le_compat_l; [unfold exponent_size; lia | discriminate].
Qed.

Lemma zero_iff_special_exponent_witness :
  let full_float := mkFields "1" "00000000" "00000000000000000000000" in
  well_formed full_float = true
  /\ ((SFeqb (fst (convert_ieee_float full_float)) (F64.of_int 0) = true
       <-> SFeqb (parse_bits (exponent_bits full_float) false) (F32.of_int 255) = true)
      /\ (SFeqb (parse_bits (exponent_bits full_float) false) (F32.of_int 255) = false ->
          is_finite (fst (convert_ieee_float full_float)) = true
          /\ (2 ^ (-126) <= Qabs (SF2Q (fst (convert_ieee_float full_float))))%Q)).
Proof.
  intros full_float. split; [reflexivity|].
  apply (zero_iff_special_exponent full_float). reflexivity.
Defined.

(** ** C7: the sign bit *)

(** C7. On 32 binary digits, changing the first digit from 0 to 1 and
    keeping the other 31 negates the decoded value: the two results compare
    equal to each other's negation, and they are the same float up to the
    sign whenever the exponent field is not 255 (with 255 both are the
    sentinel +0.0).  The sign factor is 1.0 for the digit 0 and -1.0 for the
    digit 1. *)
Theorem sign_flip_negates (rest : string) :
  String.length rest = 31%nat -> binary_string rest = true ->
  exists r0 r1,
    decoded (String "0" rest) = Some r0
    /\ decoded (String "1" rest) = Some r1
    /\ SFeqb r1 (SFopp r0) = true
    /\ SFeqb r0 (SFopp r1) = true
    /\ (bits_value (substring 0 8 rest) <> 255 -> r1 = SFopp r0)
    /\ pow_neg_one (F64.of_float (parse_bits "0" false)) = F64.of_int 1
    /\ pow_neg_one (F64.of_float (parse_bits "1" false)) = F64.of_int (-1).
Proof.
  intros Hlen Hb.
  assert (Hd : forall c, is_bit c = true ->
             decoded (String c rest)
             = Some (fst (convert_ieee_float
                            (mkFields (String c EmptyString) (substring 0 8 rest)
                                      (substring 8 23 rest))))).
  { intros c Hc. rewrite decode_exact.
    - cbn [substring]. rewrite substring_0_0. reflexivity.
    - cbn [String.length]. rewrite Hlen. reflexivity.
    - cbn [binary_string]. rewrite Hc, Hb. reflexivity. }
  assert (Hw : forall c, is_bit c = true ->
             well_formed (mkFields (String c EmptyString) (substring 0 8 rest)
                                   (substring 8 23 rest)) = true).
  { intros c Hc. apply well_formed_intro.
    - cbn [binary_string]. rewrite Hc. reflexivity.
    - reflexivity.
    - apply binary_substring, Hb.
    - apply length_substring. rewrite Hlen. simpl. lia.
    - apply binary_substring, Hb.
    - apply length_substring. rewrite Hlen. simpl. lia. }
  do 2 eexists. split; [apply Hd; reflexivity|]. split; [apply Hd; reflexivity|].
  assert (Hparts : pow_neg_one (F64.of_float (parse_bits "0" false)) = F64.of_int 1
                   /\ pow_neg_one (F64.of_float (parse_bits "1" false)) = F64.of_int (-1))
    by (split; vm_compute; reflexivity).
  destruct (Z.eq_dec (bits_value (substring 0 8 rest)) 255) as [E|E].
  - assert (Hsp : forall c,
               SFeqb (parse_bits (exponent_bits (mkFields (String c EmptyString)
                        (substring 0 8 rest) (substring 8 23 rest))) false)
                     (F32.of_int 255) = true).
    { intros c. cbn [exponent_bits]. rewrite parse_bits_integer_exact.
      - rewrite E. reflexivity.
      - apply binary_substring, Hb.
      - right. apply length_substring. rewrite Hlen. simpl. lia. }
    rewrite !(convert_special _ (Hsp _)). cbn [fst].
    repeat split; try reflexivity; try apply Hparts. intros; contradiction.
  - rewrite !convert_well_formed by (auto; apply Hw; reflexivity).
    cbn [sign_bits exponent_bits fraction_bits].
    change (bits_value "0" =? 1) with false. change (bits_value "1" =? 1) with true.
    unfold canon. cbn [SFopp negb].
    rewrite !SFeqb_refl_finite.
    repeat split; try reflexivity; apply Hparts.
Qed.

Lemma sign_flip_negates_witness :
  let rest := "1000000110100000000000000000001"%string in
  String.length rest = 31%nat /\ binary_string rest = true
  /\ exists r0 r1,
       decoded (String "0" rest) = Some r0
       /\ decoded (String "1" rest) = Some r1
       /\ SFeqb r1 (SFopp r0) = true
       /\ SFeqb r0 (SFopp r1) = true
       /\ (bits_value (substring 0 8 rest) <> 255 -> r1 = SFopp r0)
       /\ pow_neg_one (F64.of_float (parse_bits "0" false)) = F64.of_int 1
       /\ pow_neg_one (F64.of_float (parse_bits "1" false)) = F64.of_int (-1).
Proof.
  intros rest. split; [reflexivity|]. split; [reflexivity|].
  apply (sign_flip_negates rest); reflexivity.
Defined.

(** * Further properties of the source *)

(** ** split_binary_float on arbitrary arrays *)

Lemma copy_bits_short (input : array) (n : nat) :
  forall o i (field : buffer),
    (o <= List.length input < o + n)%nat ->
    copy_bits input n i (Ptr o) field = None.
Proof.
  induction n as [|n IH]; intros o i field H; [lia|].
  cbn [copy_bits is_null load incr].
  destruct (nth_error input o) as [c|] eqn:E; [|reflexivity].
  apply IH. assert (o < List.length input)%nat by (apply nth_error_Some; congruence). lia.
Qed.

Lemma copy_bits_fresh (input : array) (n o k : nat) :
  (o + n <= List.length input)%nat ->
  copy_bits input n 0 (Ptr o) (malloc_buffer (n + k))
  = Some (map Some (firstn n (skipn o input)) ++ repeat None k, Ptr (o + n)).
Proof. intros H. exact (copy_bits_full input n o [] k H). Qed.

(** What the call returns on an array of at least 32 characters, whatever
    they are: NULL and the message when one of the four allocations fails,
    and otherwise the blocks of the first 32 characters. *)
Lemma split_cases (malloc : nat -> bool) (input : array) :
  (32 <= List.length input)%nat ->
  split_binary_float malloc input (Ptr 0)
  = if malloc 0%nat && malloc 1%nat && malloc 2%nat && malloc 3%nat
    then Some (Some (blocks_of input),
               [Printf_binary (c_string (field0 (blocks_of input)))
                              (c_string (field1 (blocks_of input)))
                              (c_string (field2 (blocks_of input)))])
    else Some (None, [Perror alloc_msg]).
Proof.
  intros Hlen. unfold split_binary_float.
  destruct (malloc 0%nat); [|reflexivity].
  destruct (malloc 1%nat); [|reflexivity]. cbn [negb andb].
  destruct input as [|c0 input']; [simpl in Hlen; lia|].
  cbn [load nth_error incr].
  destruct (malloc 2%nat); [|reflexivity]. cbn [negb andb].
  rewrite (copy_bits_fresh _ 8 1 1) by lia.
  cbn [repeat].
  rewrite (store_at 8) by (rewrite length_map, length_firstn, length_skipn; lia).
  destruct (malloc 3%nat); [|reflexivity]. cbn [negb andb].
  rewrite (copy_bits_fresh _ 23 9 1) by lia.
  cbn [repeat].
  rewrite (store_at 23) by (rewrite length_map, length_firstn, length_skipn; lia).
  reflexivity.
Qed.

(** X1. With the allocations succeeding and at least 32 characters in the
    array, the call copies characters 0, 1-8 and 9-31 as they are, be they
    digits, terminators or anything else: every position of the three blocks
    is written. *)
Theorem split_copies_32_characters (malloc : nat -> bool) (input : array) :
  (forall k, (k < 4)%nat -> malloc k = true) ->
  (32 <= List.length input)%nat ->
  exists out,
    split_binary_float malloc input (Ptr 0) = Some (Some (blocks_of input), out)
    /\ Forall (fun x => x <> None)
         (field0 (blocks_of input) ++ field1 (blocks_of input) ++ field2 (blocks_of input))
    /\ List.length (field0 (blocks_of input)) = 2%nat
    /\ List.length (field1 (blocks_of input)) = 9%nat
    /\ List.length (field2 (blocks_of input)) = 24%nat.
Proof.
  intros Hm Hlen. rewrite (split_cases malloc input Hlen).
  rewrite !Hm by lia. cbn [andb]. eexists. split; [reflexivity|].
  unfold blocks_of. cbn [field0 field1 field2]. split.
  - rewrite !Forall_app. repeat split;
      try (apply Forall_map, Forall_forall; intros; discriminate);
      repeat constructor; discriminate.
  - rewrite !length_app, !length_map, !length_firstn, !length_skipn. cbn [List.length]. lia.
Qed.

Lemma split_copies_32_characters_witness :
  let input := list_ascii_of_string "1" ++ [zero] ++ repeat "X"%char 31 in
  (forall k, (k < 4)%nat -> heap_ok k = true)
  /\ (32 <= List.length input)%nat
  /\ exists out,
       split_binary_float heap_ok input (Ptr 0) = Some (Some (blocks_of input), out)
       /\ Forall (fun x => x <> None)
            (field0 (blocks_of input) ++ field1 (blocks_of input) ++ field2 (blocks_of input))
       /\ List.length (field0 (blocks_of input)) = 2%nat
       /\ List.length (field1 (blocks_of input)) = 9%nat
       /\ List.length (field2 (blocks_of input)) = 24%nat.
Proof.
  intros input. split; [reflexivity|]. split; [simpl; lia|].
  apply (split_copies_32_characters heap_ok input); [reflexivity | simpl; lia].
Defined.

(** X2. With the allocations succeeding, the call reads outside the array
    exactly when the array holds fewer than 32 characters: the terminator
    never shortens the copy. *)
Theorem split_out_of_bounds_iff (input : array) :
  split_binary_float heap_ok input (Ptr 0) = None <-> (List.length input < 32)%nat.
Proof.
  split.
  - intros H. destruct (Nat.lt_ge_cases (List.length input) 32) as [Hlt|Hge]; [exact Hlt|].
    rewrite (split_cases heap_ok input Hge) in H. discriminate H.
  - intros Hlt. unfold split_binary_float, heap_ok. cbn [negb].
    destruct input as [|c0 input']; [reflexivity|].
    cbn [load nth_error incr].
    destruct (Nat.lt_ge_cases (List.length (c0 :: input')) 9) as [H9|H9].
    + rewrite copy_bits_short by (simpl in *; lia). reflexivity.
    + rewrite (copy_bits_fresh _ 8 1 1) by lia.
      rewrite copy_bits_short by lia. reflexivity.
Qed.

(** X3. On an array of at least 32 characters the call returns NULL, with
    the allocation message as its only output, exactly when one of its four
    allocations fails. *)
Theorem split_null_iff_allocation_fails (malloc : nat -> bool) (input : array) :
  (32 <= List.length input)%nat ->
  split_binary_float malloc input (Ptr 0) = Some (None, [Perror alloc_msg])
  <-> (exists k, (k < 4)%nat /\ malloc k = false).
Proof.
  intros Hlen. rewrite (split_cases malloc input Hlen). split.
  - intros H.
    destruct (malloc 0%nat) eqn:E0; [|exists 0%nat; split; [lia|exact E0]].
    destruct (malloc 1%nat) eqn:E1; [|exists 1%nat; split; [lia|exact E1]].
    destruct (malloc 2%nat) eqn:E2; [|exists 2%nat; split; [lia|exact E2]].
    destruct (malloc 3%nat) eqn:E3; [|exists 3%nat; split; [lia|exact E3]].
    discriminate H.
  - intros [k [Hk E]].
    assert (Hc : (k = 0 \/ k = 1 \/ k = 2 \/ k = 3)%nat) by lia.
    destruct Hc as [-> | [-> | [-> | ->]]]; rewrite E;
      destruct (malloc 0%nat), (malloc 1%nat), (malloc 2%nat); reflexivity.
Qed.

Lemma split_null_iff_allocation_fails_witness :
  let input := repeat "0"%char 32 in
  let malloc := fun k => negb (Nat.eqb k 2) in
  (32 <= List.length input)%nat
  /\ (split_binary_float malloc input (Ptr 0) = Some (None, [Perror alloc_msg])
      <-> (exists k, (k < 4)%nat /\ malloc k = false)).
Proof.
  intros input malloc. split; [simpl; lia|].
  apply (split_null_iff_allocation_fails malloc input). simpl; lia.
Defined.

Lemma blocks_of_firstn (input : array) :
  blocks_of (firstn 32 input) = blocks_of input.
Proof.
  unfold blocks_of.
  rewrite firstn_firstn, !skipn_firstn_comm, !firstn_firstn. reflexivity.
Qed.

(** X4. Only the first 32 characters of the array matter: two arrays of at
    least 32 characters that agree on them get the same result, events
    included. *)
Theorem split_ignores_characters_after_32 (malloc : nat -> bool) (input input' : array) :
  (32 <= List.length input)%nat -> (32 <= List.length input')%nat ->
  firstn 32 input = firstn 32 input' ->
  split_binary_float malloc input (Ptr 0) = split_binary_float malloc input' (Ptr 0).
Proof.
  intros H H' E. rewrite (split_cases malloc input H), (split_cases malloc input' H').
  rewrite <- (blocks_of_firstn input), <- (blocks_of_firstn input'), E. reflexivity.
Qed.

Lemma split_ignores_characters_after_32_witness :
  let input := repeat "1"%char 32 ++ [zero] in
  let input' := repeat "1"%char 32 ++ list_ascii_of_string "0101" in
  (32 <= List.length input)%nat /\ (32 <= List.length input')%nat
  /\ firstn 32 input = firstn 32 input'
  /\ split_binary_float heap_ok input (Ptr 0) = split_binary_float heap_ok input' (Ptr 0).
Proof.
  intros input input'. split; [simpl; lia|]. split; [simpl; lia|]. split; [reflexivity|].
  apply (split_ignores_characters_after_32 heap_ok input input');
    [simpl; lia | simpl; lia | reflexivity].
Defined.

(** ** parse_bits beyond the two field widths *)

Lemma mul32_two (K : Z) :
  0 <= K -> 2 * K < 2 ^ 24 -> F32.mul (dyadic32 K 0) (F32.of_int 2) = dyadic32 (2 * K) 0.
Proof.
  intros HK Hb. destruct (Z.eq_dec K 0) as [->|Hn]; [reflexivity|].
  assert (HR : representable F32.prec F32.emax K 0) by (apply representable32; lia).
  assert (HR2 : representable F32.prec F32.emax (2 * K) 0) by (apply representable32; lia).
  destruct (cexp_le _ _ format32 K 0 HR) as [Hc _].
  pose proof (canon_mantissa _ _ format32 K 0 HR) as Hm.
  assert (Hlog : Z.log2 (2 * K) = Z.log2 K + 1) by (rewrite Z.log2_double; lia).
  assert (Hc2 : cexp F32.prec F32.emax K 0 - 22 <= cexp F32.prec F32.emax (2 * K) 0).
  { unfold cexp, fexp, emin, F32.prec, F32.emax. rewrite Hlog. lia. }
  rewrite !dyadic32_canon by lia.
  change (F32.of_int 2) with (S754_finite false 8388608 (-22)).
  unfold canon at 1. unfold F32.mul.
  change false with (xorb false false) at 3.
  apply (mul_value _ _ format32) with (lo := cexp F32.prec F32.emax K 0 - 22); try lia.
  - exact HR2.
  - rewrite Hm.
    replace (cexp F32.prec F32.emax K 0 + -22 - (cexp F32.prec F32.emax K 0 - 22)) with 0 by lia.
    replace (0 - (cexp F32.prec F32.emax K 0 - 22))
      with (22 + (0 - cexp F32.prec F32.emax K 0)) by lia.
    rewrite pow2_split by lia. change (2 ^ 22) with 4194304. lia.
Qed.

Lemma parse_integer_exact (s : string) :
  forall K, binary_string s = true -> 0 <= K -> bits_from s K < 2 ^ 24 ->
    parse_integer s (dyadic32 K 0) = dyadic32 (bits_from s K) 0.
Proof.
  induction s as [|c s IH]; intros K Hb HK Hlt; [reflexivity|].
  cbn [binary_string] in Hb. apply andb_prop in Hb as [Hc Hb].
  cbn [parse_integer bits_from] in *.
  assert (Hd : 0 <= char_code c - char_code "0" <= 1)
    by (destruct (is_bit_cases c Hc) as [-> | ->]; vm_compute; split; discriminate).
  set (d := char_code c - char_code "0") in *.
  pose proof (bits_from_bound s (2 * K + d) Hb ltac:(lia)) as B.
  pose proof (pow2_pos (Z.of_nat (String.length s)) ltac:(lia)) as P.
  assert (H2 : 2 * K + d < 2 ^ 24) by nia.
  rewrite mul32_two by lia.
  change (F32.of_int d) with (dyadic32 d 0).
  rewrite (add32_dyadic (2 * K) 0 d 0 (2 * K + d) 0 0) by (try lia; rewrite Z.sub_diag; lia).
  apply IH; auto; lia.
Qed.

Lemma Qpow2_zero_exponent (x : Q) : (x * 2 ^ 0 == x)%Q.
Proof. change (2 ^ 0)%Q with 1%Q. ring. Qed.

(** X5. Integer mode is exact as long as the number spelt is below 2^24,
    whatever the length of the string: the result is that integer.  One more
    bit is one too many: the 25 digits of 2^24 + 1 parse to 2^24. *)
Theorem integer_mode_exact_below_2_24 :
  (forall s, binary_string s = true -> bits_value s < 2 ^ 24 ->
     parse_bits s false = F32.of_int (bits_value s)
     /\ (SF2Q (parse_bits s false) == inject_Z (bits_value s))%Q)
  /\ (let s := "1000000000000000000000001"%string in
      binary_string s = true /\ bits_value s = 2 ^ 24 + 1
      /\ (SF2Q (parse_bits s false) == inject_Z (2 ^ 24))%Q).
Proof.
  split.
  - intros s Hb Hlt.
    pose proof (bits_value_bound s Hb) as B.
    assert (E : parse_bits s false = F32.of_int (bits_value s))
      by (apply (parse_integer_exact s 0 Hb); [lia | exact Hlt]).
    split; [exact E|]. rewrite E. change (F32.of_int (bits_value s)) with (dyadic32 (bits_value s) 0).
    rewrite SF2Q_dyadic32 by lia. apply Qpow2_zero_exponent.
  - cbv zeta. repeat split; vm_compute; reflexivity.
Qed.

Lemma Qpow2_neg (n : Z) (x : Q) : (x * 2 ^ (- n) == x / 2 ^ n)%Q.
Proof. unfold Qdiv. rewrite Qpower_opp. reflexivity. Qed.

(** X6. Fractional mode is exact on up to 24 binary digits: the result is
    the integer the digits spell divided by 2^length, a number in [0, 1).
    With 25 digits it rounds: the digits of 1/2 + 2^-25 parse to 1/2. *)
Theorem fractional_mode_exact_to_24_digits :
  (forall s, binary_string s = true -> (String.length s <= 24)%nat ->
     (SF2Q (parse_bits s true)
      == inject_Z (bits_value s) / 2 ^ Z.of_nat (String.length s))%Q
     /\ (0 <= SF2Q (parse_bits s true) < 1)%Q)
  /\ (let s := "1000000000000000000000001"%string in
      binary_string s = true /\ String.length s = 25%nat
      /\ (SF2Q (parse_bits s true) == 1 # 2)%Q).
Proof.
  split.
  - intros s Hb Hlen.
    pose proof (bits_value_bound s Hb) as B.
    set (n := Z.of_nat (String.length s)) in *.
    assert (Hn : 0 <= n <= 24) by (unfold n; lia).
    assert (P : 2 ^ n <= 2 ^ 24) by (apply Z.pow_le_mono_r; lia).
    assert (E : (SF2Q (parse_bits s true) == inject_Z (bits_value s) * 2 ^ (- n))%Q).
    { rewrite parse_bits_fractional_exact by (auto; fold n; lia). fold n.
      apply SF2Q_dyadic32; lia. }
    split; [rewrite E; apply Qpow2_neg|]. rewrite E. split.
    + apply Qmult_le_0_compat; [|apply Qlt_le_weak, Qpow2_gt0].
      change (inject_Z 0 <= inject_Z (bits_value s))%Q. rewrite <- Zle_Qle. lia.
    + apply Qlt_le_trans with (inject_Z (2 ^ n) * 2 ^ (- n))%Q.
      * apply Qmult_lt_compat_r; [apply Qpow2_gt0|]. rewrite <- Zlt_Qlt. lia.
      * rewrite Qpow2_inject by lia. rewrite <- Qpow2_add.
        replace (n + - n) with 0 by lia. apply Qle_refl.
  - cbv zeta. repeat split; vm_compute; reflexivity.
Qed.

Lemma halved_div (n : nat) (f : spec_float) :
  halved n (F32.div f (F32.of_int 2)) = F32.div (halved n f) (F32.of_int 2).
Proof. induction n as [|n IH]; [reflexivity|]. cbn [halved]. rewrite IH. reflexivity. Qed.

Lemma parse_fractional_app (a : string) :
  forall b acc f,
    parse_fractional (a ++ b) acc f
    = parse_fractional b (parse_fractional a acc f) (halved (String.length a) f).
Proof.
  induction a as [|c a IH]; intros b acc f; [reflexivity|].
  cbn [append parse_fractional String.length halved]. rewrite IH, halved_div. reflexivity.
Qed.

Lemma parse_fractional_zeros_acc (acc : spec_float) (m : nat) :
  nonneg_finite acc = true ->
  forall k, parse_fractional (zeros m) acc (halved k half) = acc.
Proof.
  intros Hacc. induction m as [|m IH]; intros k; [reflexivity|].
  cbn [zeros parse_fractional].
  change (char_code "0" - char_code "0") with 0.
  change (F32.of_int 0) with (S754_zero false).
  rewrite mul32_zero_l by apply halved_nonneg.
  rewrite add32_zero_r by exact Hacc.
  apply (IH (S k)).
Qed.

(** X7. In fractional mode zeros appended to a string of up to 24 binary
    digits never change the result, however many they are (the factor
    underflows to zero and stays there). *)
Theorem fractional_mode_trailing_zeros (s : string) (m : nat) :
  binary_string s = true -> (String.length s <= 24)%nat ->
  parse_bits (s ++ zeros m) true = parse_bits s true.
Proof.
  intros Hb Hlen. unfold parse_bits. cbn [negb].
  rewrite parse_fractional_app.
  apply parse_fractional_zeros_acc.
  change (parse_fractional s (S754_zero false) half) with (parse_bits s true).
  rewrite parse_bits_fractional_exact by (auto; lia).
  pose proof (bits_value_bound s Hb) as B.
  assert (P : 2 ^ Z.of_nat (String.length s) <= 2 ^ 24) by (apply Z.pow_le_mono_r; lia).
  apply dyadic32_nonneg_finite; lia.
Qed.

Lemma fractional_mode_trailing_zeros_witness :
  let s := "101"%string in
  binary_string s = true /\ (String.length s <= 24)%nat
  /\ parse_bits (s ++ zeros 200) true = parse_bits s true.
Proof.
  intros s. split; [reflexivity|]. split; [simpl; lia|].
  apply (fractional_mode_trailing_zeros s 200); [reflexivity | simpl; lia].
Defined.

Lemma parse_integer_app (a : string) :
  forall b acc, parse_integer (a ++ b) acc = parse_integer b (parse_integer a acc).
Proof. induction a as [|c a IH]; intros b acc; [reflexivity|]. cbn. apply IH. Qed.

(** X8. In integer mode zeros put in front of a string never change the
    result, whatever the string holds. *)
Theorem integer_mode_leading_zeros (s : string) (m : nat) :
  parse_bits (zeros m ++ s) false = parse_bits s false.
Proof.
  unfold parse_bits. cbn [negb]. rewrite parse_integer_app, parse_integer_zeros. reflexivity.
Qed.

(** ** convert_ieee_float on all well-formed fields *)

Lemma SF2Q_canon_abs (s : bool) (W k : Z) :
  representable F64.prec F64.emax W k ->
  (Qabs (SF2Q (canon F64.prec F64.emax s W k)) == inject_Z W * 2 ^ k)%Q.
Proof.
  intros HR. assert (HW : 0 < W) by (destruct HR as [[? _] _]; assumption).
  rewrite (SF2Q_canon _ _ s W k format64 HR), Qabs_Qmult.
  rewrite (Qabs_pos (2 ^ k)) by (apply Qlt_le_weak, Qpow2_gt0).
  apply Qmult_comp; [|reflexivity].
  destruct s; cbn [cond_Zopp].
  - rewrite inject_Z_opp, Qabs_opp. apply Qabs_pos.
    change (inject_Z 0 <= inject_Z W)%Q. rewrite <- Zle_Qle. lia.
  - apply Qabs_pos. change (inject_Z 0 <= inject_Z W)%Q. rewrite <- Zle_Qle. lia.
Qed.

(** X9. On well-formed fields with an exponent field [e] other than 255 the
    result is finite, its value is
    [(-1)^sign * 2^(max e 1 - 127) * (1 + fraction / 2^23)], and its
    magnitude stays below 2^128: the conversion never overflows. *)
Theorem convert_value_and_range (full_float : SplitFields) :
  well_formed full_float = true ->
  bits_value (exponent_bits full_float) <> 255 ->
  let sgn := if bits_value (sign_bits full_float) =? 1 then (- (1))%Q else 1%Q in
  let e := bits_value (exponent_bits full_float) in
  let F := bits_value (fraction_bits full_float) in
  let r := fst (convert_ieee_float full_float) in
  is_finite r = true
  /\ (SF2Q r == sgn * 2 ^ (Z.max e 1 - 127) * (1 + inject_Z F / 2 ^ 23))%Q
  /\ (Qabs (SF2Q r) < 2 ^ 128)%Q.
Proof.
  intros Hw He sgn e F r.
  destruct (well_formed_fields full_float Hw) as [[Hs Hsl] [[Hx Hxl] [Hf Hfl]]].
  pose proof (bits_value_bound _ Hx) as Bx. rewrite Hxl in Bx.
  change (2 ^ Z.of_nat 8) with 256 in Bx.
  pose proof (bits_value_bound _ Hf) as Bf. rewrite Hfl in Bf.
  change (Z.of_nat 23) with 23 in Bf. fold e in Bx, He. fold F in Bf.
  set (k := Z.max e 1 - 127).
  assert (Hk : -126 <= k <= 127) by (unfold k; lia).
  assert (Hr : r = canon F64.prec F64.emax (bits_value (sign_bits full_float) =? 1)
                     (2 ^ 23 + F) (k - 23))
    by (unfold r; rewrite (convert_well_formed full_float Hw He); reflexivity).
  assert (HR : representable F64.prec F64.emax (2 ^ 23 + F) (k - 23))
    by (apply representable64; lia).
  split; [rewrite Hr; reflexivity|]. split.
  - rewrite Hr, (SF2Q_canon _ _ _ _ _ format64 HR).
    assert (Hsg : (inject_Z (cond_Zopp (bits_value (sign_bits full_float) =? 1) (2 ^ 23 + F))
                   == sgn * (inject_Z (2 ^ 23) + inject_Z F))%Q).
    { unfold sgn. destruct (bits_value (sign_bits full_float) =? 1); cbn [cond_Zopp].
      - rewrite inject_Z_opp, inject_Z_plus. ring.
      - rewrite inject_Z_plus. ring. }
    rewrite Hsg.
    replace (k - 23) with (k + (-23)) by lia. rewrite Qpow2_add.
    assert (H1 : (inject_Z (2 ^ 23) * 2 ^ (-23) == 1)%Q) by reflexivity.
    rewrite <- Qpow2_neg.
    transitivity (sgn * 2 ^ k * (inject_Z (2 ^ 23) * 2 ^ (-23) + inject_Z F * 2 ^ (-23)))%Q.
    + ring.
    + rewrite H1. reflexivity.
  - rewrite Hr, (SF2Q_canon_abs _ _ _ HR).
    apply Qlt_le_trans with (inject_Z (2 ^ 24) * 2 ^ (k - 23))%Q.
    + apply Qmult_lt_compat_r; [apply Qpow2_gt0|]. rewrite <- Zlt_Qlt. lia.
    + rewrite Qpow2_inject by lia. rewrite <- Qpow2_add.
      apply Qpower_le_compat_l; [lia | discriminate].
Qed.

Lemma convert_value_and_range_witness :
  let full_float := mkFields "1" "11111110" "11111111111111111111111" in
  well_formed full_float = true
  /\ bits_value (exponent_bits full_float) <> 255
  /\ (is_finite (fst (convert_ieee_float full_float)) = true
      /\ (SF2Q (fst (convert_ieee_float full_float))
          == (if bits_value (sign_bits full_float) =? 1 then (- (1)) else 1)
             * 2 ^ (Z.max (bits_value (exponent_bits full_float)) 1 - 127)
             * (1 + inject_Z (bits_value (fraction_bits full_float)) / 2 ^ 23))%Q
      /\ (Qabs (SF2Q (fst (convert_ieee_float full_float))) < 2 ^ 128)%Q).
Proof.
  intros full_float. split; [reflexivity|]. split; [vm_compute; discriminate|].
  apply (convert_value_and_range full_float); [reflexivity | vm_compute; discriminate].
Defined.

(** X10. For an exponent field in 1..254 the result is the promotion to
    [double] of the IEEE 754 binary32 number that has these three fields,
    which is a valid binary32 float. *)
Theorem normal_matches_binary32 (full_float : SplitFields) :
  well_formed full_float = true ->
  1 <= bits_value (exponent_bits full_float) <= 254 ->
  let x := binary32_normal (bits_value (sign_bits full_float) =? 1)
             (bits_value (exponent_bits full_float))
             (bits_value (fraction_bits full_float)) in
  valid_binary F32.prec F32.emax x = true
  /\ fst (convert_ieee_float full_float) = F64.of_float x.
Proof.
  intros Hw He x.
  destruct (well_formed_fields full_float Hw) as [[Hs Hsl] [[Hx Hxl] [Hf Hfl]]].
  pose proof (bits_value_bound _ Hf) as Bf. rewrite Hfl in Bf.
  change (Z.of_nat 23) with 23 in Bf.
  set (e := bits_value (exponent_bits full_float)) in *.
  set (F := bits_value (fraction_bits full_float)) in *.
  assert (HW : Zpos (Z.to_pos (2 ^ 23 + F)) = 2 ^ 23 + F) by (apply Z2Pos.id; lia).
  assert (Hlog : Z.log2 (2 ^ 23 + F) = 23) by (apply log2_between; lia).
  split.
  - unfold x, binary32_normal. cbn [valid_binary]. unfold bounded, canonical_mantissa.
    rewrite digits2_pos_log2, HW, Hlog.
    unfold fexp, emin, F32.prec, F32.emax.
    apply andb_true_intro. split; [apply Z.eqb_eq | apply Z.leb_le]; lia.
  - rewrite (convert_well_formed full_float Hw) by (fold e; lia). fold e F.
    unfold x, binary32_normal. cbn [F64.of_float]. symmetry.
    apply (canon_value _ _ format64) with (lo := e - 150).
    + apply representable64; unfold exponent_size; lia.
    + lia.
    + unfold exponent_size; lia.
    + rewrite HW. f_equal. f_equal. unfold exponent_size. lia.
Qed.

Lemma normal_matches_binary32_witness :
  let full_float := mkFields "1" "10000001" "01000000000000000000000" in
  well_formed full_float = true
  /\ 1 <= bits_value (exponent_bits full_float) <= 254
  /\ (valid_binary F32.prec F32.emax
        (binary32_normal (bits_value (sign_bits full_float) =? 1)
           (bits_value (exponent_bits full_float))
           (bits_value (fraction_bits full_float))) = true
      /\ fst (convert_ieee_float full_float)
         = F64.of_float (binary32_normal (bits_value (sign_bits full_float) =? 1)
                           (bits_value (exponent_bits full_float))
                           (bits_value (fraction_bits full_float)))).
Proof.
  intros full_float. split; [reflexivity|]. split; [vm_compute; split; discriminate|].
  apply (normal_matches_binary32 full_float); [reflexivity | vm_compute; split; discriminate].
Defined.

(** X11. The exponent fields 00000000 and 00000001 decode to the same
    value, for every sign bit and every fraction. *)
Theorem exponent_zero_decodes_as_one (sign fraction : string) :
  binary_string sign = true -> String.length sign = 1%nat ->
  binary_string fraction = true -> String.length fraction = 23%nat ->
  fst (convert_ieee_float (mkFields sign "00000000" fraction))
  = fst (convert_ieee_float (mkFields sign "00000001" fraction)).
Proof.
  intros Hs Hsl Hf Hfl.
  assert (W0 : well_formed (mkFields sign "00000000" fraction) = true)
    by (apply well_formed_intro; auto).
  assert (W1 : well_formed (mkFields sign "00000001" fraction) = true)
    by (apply well_formed_intro; auto).
  assert (N0 : bits_value (exponent_bits (mkFields sign "00000000" fraction)) <> 255)
    by (cbn [exponent_bits]; change (bits_value "00000000") with 0; discriminate).
  assert (N1 : bits_value (exponent_bits (mkFields sign "00000001" fraction)) <> 255)
    by (cbn [exponent_bits]; change (bits_value "00000001") with 1; discriminate).
  rewrite (convert_well_formed _ W0 N0), (convert_well_formed _ W1 N1).
  reflexivity.
Qed.

Lemma exponent_zero_decodes_as_one_witness :
  let sign := "1"%string in
  let fraction := "10100000000000000000001"%string in
  binary_string sign = true /\ String.length sign = 1%nat
  /\ binary_string fraction = true /\ String.length fraction = 23%nat
  /\ fst (convert_ieee_float (mkFields sign "00000000" fraction))
     = fst (convert_ieee_float (mkFields sign "00000001" fraction)).
Proof.
  intros sign fraction. repeat (split; [reflexivity|]).
  apply (exponent_zero_decodes_as_one sign fraction); reflexivity.
Defined.

Lemma bits_from_inj (a : string) :
  forall b K K',
    binary_string a = true -> binary_string b = true ->
    String.length a = String.length b -> 0 <= K -> 0 <= K' ->
    bits_from a K = bits_from b K' -> a = b /\ K = K'.
Proof.
  induction a as [|c a IH]; intros [|d b] K K' Ha Hb Hlen HK HK' E;
    try discriminate Hlen.
  - split; [reflexivity | exact E].
  - cbn [binary_string] in Ha, Hb.
    apply andb_prop in Ha as [Hc Ha]. apply andb_prop in Hb as [Hd Hb].
    cbn [bits_from] in E. injection Hlen as Hlen.
    assert (Dc : 0 <= char_code c - char_code "0" <= 1)
      by (destruct (is_bit_cases c Hc) as [-> | ->]; vm_compute; split; discriminate).
    assert (Dd : 0 <= char_code d - char_code "0" <= 1)
      by (destruct (is_bit_cases d Hd) as [-> | ->]; vm_compute; split; discriminate).
    destruct (IH b (2 * K + (char_code c - char_code "0"))
                (2 * K' + (char_code d - char_code "0"))
                Ha Hb Hlen ltac:(lia) ltac:(lia) E) as [Eab EK].
    assert (K = K' /\ char_code c = char_code d) as [EK' Ecd] by lia.
    split; [|exact EK']. f_equal; [|exact Eab].
    destruct (is_bit_cases c Hc) as [-> | ->], (is_bit_cases d Hd) as [-> | ->];
      try reflexivity; vm_compute in Ecd; discriminate Ecd.
Qed.

Lemma finite_inj (s s' : bool) (m m' : positive) (e e' : Z) :
  S754_finite s m e = S754_finite s' m' e' -> s = s' /\ m = m' /\ e = e'.
Proof. intros H. injection H as -> -> ->. repeat split. Qed.

Lemma canon64_normal_form (s : bool) (W k : Z) :
  2 ^ 23 <= W < 2 ^ 24 -> -149 <= k <= 104 ->
  canon F64.prec F64.emax s W k = S754_finite s (Z.to_pos (W * 2 ^ 29)) (k - 29).
Proof.
  intros HW Hk.
  assert (Hlog : Z.log2 W = 23) by (apply log2_between; lia).
  assert (Hc : cexp F64.prec F64.emax W k = k - 29)
    by (unfold cexp, fexp, emin, F64.prec, F64.emax; rewrite Hlog; lia).
  unfold canon. rewrite Hc. replace (k - (k - 29)) with 29 by lia. reflexivity.
Qed.

(** X12. On exponent fields in 1..254 the conversion is injective: two
    well-formed field triples with the same result are the same triple. *)
Theorem normal_decode_injective (f g : SplitFields) :
  well_formed f = true -> well_formed g = true ->
  1 <= bits_value (exponent_bits f) <= 254 ->
  1 <= bits_value (exponent_bits g) <= 254 ->
  fst (convert_ieee_float f) = fst (convert_ieee_float g) -> f = g.
Proof.
  intros Wf Wg Ef Eg H.
  destruct (well_formed_fields f Wf) as [[Hs Hsl] [[Hx Hxl] [Hf Hfl]]].
  destruct (well_formed_fields g Wg) as [[Gs Gsl] [[Gx Gxl] [Gf Gfl]]].
  pose proof (bits_value_bound _ Hs) as Bs. rewrite Hsl in Bs.
  pose proof (bits_value_bound _ Gs) as Cs. rewrite Gsl in Cs.
  change (2 ^ Z.of_nat 1) with 2 in Bs, Cs.
  pose proof (bits_value_bound _ Hf) as Bf. rewrite Hfl in Bf.
  pose proof (bits_value_bound _ Gf) as Cf. rewrite Gfl in Cf.
  change (Z.of_nat 23) with 23 in Bf, Cf.
  rewrite (convert_well_formed f Wf), (convert_well_formed g Wg) in H by lia.
  unfold exponent_size in H.
  rewrite !canon64_normal_form in H by lia.
  apply finite_inj in H as [Hsign [Hm He]].
  apply Z2Pos.inj in Hm; try lia.
  assert (Es : bits_value (sign_bits f) = bits_value (sign_bits g)).
  { destruct (Z.eqb_spec (bits_value (sign_bits f)) 1),
             (Z.eqb_spec (bits_value (sign_bits g)) 1); try discriminate Hsign; lia. }
  assert (Ee : bits_value (exponent_bits f) = bits_value (exponent_bits g)) by lia.
  assert (EF : bits_value (fraction_bits f) = bits_value (fraction_bits g)) by lia.
  destruct f as [fs fe ff], g as [gs ge gf]. cbn [sign_bits exponent_bits fraction_bits] in *.
  unfold bits_value in Es, Ee, EF.
  destruct (bits_from_inj fs gs 0 0 Hs Gs ltac:(congruence) ltac:(lia) ltac:(lia) Es) as [-> _].
  destruct (bits_from_inj fe ge 0 0 Hx Gx ltac:(congruence) ltac:(lia) ltac:(lia) Ee) as [-> _].
  destruct (bits_from_inj ff gf 0 0 Hf Gf ltac:(congruence) ltac:(lia) ltac:(lia) EF) as [-> _].
  reflexivity.
Qed.

Lemma normal_decode_injective_witness :
  let f := mkFields "0" "10000000" "10000000000000000000000" in
  well_formed f = true /\ well_formed f = true
  /\ 1 <= bits_value (exponent_bits f) <= 254
  /\ 1 <= bits_value (exponent_bits f) <= 254
  /\ fst (convert_ieee_float f) = fst (convert_ieee_float f)
  /\ f = f.
Proof.
  intros f. split; [reflexivity|]. split; [reflexivity|].
  split; [vm_compute; split; discriminate|]. split; [vm_compute; split; discriminate|].
  split; [reflexivity|].
  apply (normal_decode_injective f f);
    [reflexivity | reflexivity | vm_compute; split; discriminate
     | vm_compute; split; discriminate | reflexivity].
Defined.

(** ** main *)



(** ** Lines shorter than 32 digits *)

Lemma list_ascii_app (a b : string) :
  list_ascii_of_string (a ++ b) = list_ascii_of_string a ++ list_ascii_of_string b.
Proof. induction a as [|c a IH]; [reflexivity|]. cbn. rewrite IH. reflexivity. Qed.

Lemma string_of_list_app (a b : list ascii) :
  string_of_list_ascii (a ++ b) = (string_of_list_ascii a ++ string_of_list_ascii b)%string.
Proof. induction a as [|c a IH]; [reflexivity|]. cbn. rewrite IH. reflexivity. Qed.

Lemma list_ascii_zeros (j : nat) : list_ascii_of_string (zeros j) = repeat "0"%char j.
Proof. induction j as [|j IH]; [reflexivity|]. cbn. rewrite IH. reflexivity. Qed.

Lemma length_zeros (j : nat) : String.length (zeros j) = j.
Proof. induction j as [|j IH]; [reflexivity|]. cbn. rewrite IH. reflexivity. Qed.

Lemma length_string_app (a b : string) :
  String.length (a ++ b) = (String.length a + String.length b)%nat.
Proof. induction a as [|c a IH]; [reflexivity|]. cbn. rewrite IH. reflexivity. Qed.

Lemma binary_zeros (j : nat) : binary_string (zeros j) = true.
Proof. induction j as [|j IH]; [reflexivity|]. exact IH. Qed.

Lemma binary_app (a b : string) :
  binary_string a = true -> binary_string b = true -> binary_string (a ++ b) = true.
Proof.
  intros Ha Hb. induction a as [|c a IH]; [exact Hb|].
  cbn [binary_string append] in *. apply andb_prop in Ha as [Hc Ha].
  rewrite Hc, (IH Ha). reflexivity.
Qed.

Lemma bits_from_zeros (j : nat) : forall K, bits_from (zeros j) K = K * 2 ^ Z.of_nat j.
Proof.
  induction j as [|j IH]; intros K; [simpl; lia|].
  cbn [zeros bits_from]. change (char_code "0" - char_code "0") with 0.
  rewrite IH, Nat2Z.inj_succ, Z.pow_succ_r by lia. lia.
Qed.

Lemma bits_from_app_zeros (a : string) (j : nat) :
  forall K, bits_from (a ++ zeros j) K = bits_from a K * 2 ^ Z.of_nat j.
Proof.
  induction a as [|c a IH]; intros K; [apply bits_from_zeros|].
  cbn [append bits_from]. apply IH.
Qed.

Lemma substring_app_inside (s t : string) (a m : nat) :
  (a + m <= String.length s)%nat -> substring a m (s ++ t) = substring a m s.
Proof.
  intros H. rewrite <- !substring_firstn_skipn, list_ascii_app.
  rewrite skipn_app, firstn_app, length_skipn, length_list_ascii.
  rewrite (firstn_O_of_sub m) by lia. rewrite app_nil_r. reflexivity.
Qed.

Lemma substring_app_zeros (s : string) (a m j : nat) :
  (a <= String.length s)%nat -> (a + m = String.length s + j)%nat ->
  substring a m (s ++ zeros j) = (substring a m s ++ zeros j)%string.
Proof.
  intros Ha Hm. rewrite <- !substring_firstn_skipn, list_ascii_app.
  rewrite skipn_app, length_list_ascii.
  replace (a - String.length s)%nat with 0%nat by lia. cbn [skipn].
  rewrite firstn_app, length_skipn, length_list_ascii.
  replace (m - (String.length s - a))%nat with j by lia.
  rewrite string_of_list_app. f_equal.
  rewrite <- (string_of_list_ascii_of_string (zeros j)) at 2. f_equal.
  apply firstn_all2. rewrite length_list_ascii, length_zeros. lia.
Qed.

Lemma length_substring_tail (s : string) (a m : nat) :
  (a <= String.length s <= a + m)%nat ->
  String.length (substring a m s) = (String.length s - a)%nat.
Proof.
  intros H. rewrite <- substring_firstn_skipn.
  rewrite <- length_list_ascii, list_ascii_of_string_of_list_ascii.
  rewrite length_firstn, length_skipn, length_list_ascii. lia.
Qed.

(** The strings read from the blocks when the array holds a line of 9 to 31
    binary digits, its terminator and anything after it: the copy of the
    terminator ends the fraction string. *)
Lemma fields_of_short_line (s : string) (junk : array) :
  binary_string s = true -> (9 <= String.length s <= 31)%nat ->
  fields_of (blocks_of (list_ascii_of_string s ++ zero :: junk))
  = Some (mkFields (substring 0 1 s) (substring 1 8 s) (substring 9 23 s)).
Proof.
  intros Hb Hlen.
  set (l := list_ascii_of_string s).
  assert (Hl : List.length l = String.length s) by apply length_list_ascii.
  assert (Hbl : forallb is_bit l = true) by (unfold l; rewrite <- binary_string_forallb; exact Hb).
  assert (H0 : c_string (map Some (firstn 1 (l ++ zero :: junk)) ++ [Some zero])
               = Some (substring 0 1 s)).
  { rewrite firstn_app, (firstn_O_of_sub 1) by lia. rewrite app_nil_r.
    rewrite c_string_terminated by (apply forallb_firstn; exact Hbl).
    rewrite <- substring_firstn_skipn. reflexivity. }
  assert (H1 : c_string (map Some (firstn 8 (skipn 1 (l ++ zero :: junk))) ++ [Some zero])
               = Some (substring 1 8 s)).
  { rewrite skipn_app, firstn_app, length_skipn.
    rewrite (firstn_O_of_sub 8) by lia. rewrite app_nil_r.
    rewrite c_string_terminated by (apply forallb_firstn, forallb_skipn; exact Hbl).
    rewrite <- substring_firstn_skipn. reflexivity. }
  assert (H2 : c_string (map Some (firstn 23 (skipn 9 (l ++ zero :: junk))) ++ [Some zero])
               = Some (substring 9 23 s)).
  { rewrite skipn_app. replace (9 - List.length l)%nat with 0%nat by lia.
    rewrite skipn_O, firstn_app, length_skipn.
    replace (23 - (List.length l - 9))%nat with (S (31 - List.length l)) by lia.
    rewrite firstn_cons, map_app, map_cons, <- app_assoc, <- app_comm_cons.
    rewrite c_string_terminated by (apply forallb_firstn, forallb_skipn; exact Hbl).
    rewrite <- substring_firstn_skipn. reflexivity. }
  unfold fields_of, blocks_of. cbn [field0 field1 field2].
  rewrite H0, H1, H2. reflexivity.
Qed.

(** X14. A line of 9 to 31 binary digits decodes to the same value as the
    line filled up with zeros to 32 digits, whatever the array holds after
    the terminator: those characters are copied into the fraction block but
    lie behind the copied terminator. *)
Theorem short_line_decodes_as_zero_padded (s : string) (junk : array) :
  binary_string s = true -> (9 <= String.length s <= 31)%nat ->
  (32 <= String.length s + 1 + List.length junk)%nat ->
  option_map fst (decode heap_ok (list_ascii_of_string s ++ zero :: junk))
  = decoded (s ++ zeros (32 - String.length s)).
Proof.
  intros Hb Hlen Hjunk.
  set (j := (32 - String.length s)%nat).
  set (S0 := substring 0 1 s). set (E0 := substring 1 8 s). set (F0 := substring 9 23 s).
  assert (Hshort : option_map fst (decode heap_ok (list_ascii_of_string s ++ zero :: junk))
                   = Some (fst (convert_ieee_float (mkFields S0 E0 F0)))).
  { unfold decode. rewrite split_cases
      by (rewrite length_app, length_list_ascii; cbn [List.length]; lia).
    cbn [heap_ok andb]. rewrite (fields_of_short_line s junk Hb Hlen). fold S0 E0 F0.
    destruct (convert_ieee_float (mkFields S0 E0 F0)); reflexivity. }
  assert (Hpad : decoded (s ++ zeros j)
                 = Some (fst (convert_ieee_float (mkFields S0 E0 (F0 ++ zeros j))))).
  { rewrite decode_exact.
    - rewrite !substring_app_inside by lia.
      rewrite substring_app_zeros by (unfold j; lia). reflexivity.
    - rewrite length_string_app, length_zeros. unfold j. lia.
    - apply binary_app; [exact Hb | apply binary_zeros]. }
  rewrite Hshort, Hpad. f_equal.
  assert (BS : binary_string S0 = true) by (apply binary_substring; exact Hb).
  assert (BE : binary_string E0 = true) by (apply binary_substring; exact Hb).
  assert (BF : binary_string F0 = true) by (apply binary_substring; exact Hb).
  assert (LS : String.length S0 = 1%nat) by (apply length_substring; lia).
  assert (LE : String.length E0 = 8%nat) by (apply length_substring; lia).
  assert (LF : String.length F0 = (String.length s - 9)%nat)
    by (apply length_substring_tail; lia).
  assert (PS : parse_bits S0 false = F32.of_int (bits_value S0))
    by (apply parse_bits_integer_exact; auto).
  assert (PE : parse_bits E0 false = F32.of_int (bits_value E0))
    by (apply parse_bits_integer_exact; auto).
  pose proof (bits_value_bound _ BS) as RS. rewrite LS in RS.
  change (2 ^ Z.of_nat 1) with 2 in RS.
  pose proof (bits_value_bound _ BE) as RE. rewrite LE in RE.
  change (2 ^ Z.of_nat 8) with 256 in RE.
  destruct (Z.eq_dec (bits_value E0) 255) as [E255|N255].
  - rewrite !convert_special
      by (cbn [exponent_bits]; rewrite PE, E255; reflexivity).
    reflexivity.
  - assert (BFp : binary_string (F0 ++ zeros j) = true)
      by (apply binary_app; [exact BF | apply binary_zeros]).
    assert (LFp : String.length (F0 ++ zeros j) = 23%nat)
      by (rewrite length_string_app, length_zeros, LF; unfold j; lia).
    set (m := Z.of_nat (String.length F0)).
    assert (Hm : 0 <= m <= 22) by (unfold m; rewrite LF; lia).
    assert (Hj : Z.of_nat j = 23 - m) by (unfold m, j; rewrite LF; lia).
    pose proof (bits_value_bound _ BF) as RF. fold m in RF.
    pose proof (convert_exact (mkFields S0 E0 F0) _ _ PS ltac:(lia) PE ltac:(lia) BF
                  ltac:(cbn [fraction_bits]; fold m; lia)) as C1.
    pose proof (convert_exact (mkFields S0 E0 (F0 ++ zeros j)) _ _ PS ltac:(lia) PE
                  ltac:(lia) BFp ltac:(cbn [fraction_bits]; rewrite LFp; discriminate)) as C2.
    cbn [fraction_bits] in C1, C2. rewrite LFp in C2. fold m in C1.
    change (Z.of_nat 23) with 23 in C2.
    rewrite C1, C2. cbn [fst].
    assert (BV : bits_value (F0 ++ zeros j) = bits_value F0 * 2 ^ (23 - m))
      by (unfold bits_value; rewrite bits_from_app_zeros, Hj; reflexivity).
    rewrite BV.
    set (k := Z.max (bits_value E0) 1 - exponent_size).
    assert (Hk : -126 <= k <= 127) by (unfold k, exponent_size; lia).
    assert (P1 : 2 ^ (23 - m) * 2 ^ m = 2 ^ 23)
      by (rewrite <- pow2_split by lia; f_equal; lia).
    pose proof (pow2_pos m ltac:(lia)) as Pm.
    pose proof (pow2_pos (23 - m) ltac:(lia)) as Pj.
    assert (Pm23 : 2 * 2 ^ m <= 2 ^ 23).
    { replace (2 * 2 ^ m) with (2 ^ (m + 1)) by (rewrite pow2_split by lia; lia).
      apply Z.pow_le_mono_r; lia. }
    apply (canon_same _ _ format64) with (lo := k - 23); try lia.
    + apply representable64; lia.
    + apply representable64; nia.
    + replace (k - m - (k - 23)) with (23 - m) by lia. rewrite Z.sub_diag. nia.
Qed.

Lemma short_line_decodes_as_zero_padded_witness :
  let s := "010000001101"%string in
  let junk := repeat "X"%char 20 in
  binary_string s = true /\ (9 <= String.length s <= 31)%nat
  /\ (32 <= String.length s + 1 + List.length junk)%nat
  /\ option_map fst (decode heap_ok (list_ascii_of_string s ++ zero :: junk))
     = decoded (s ++ zeros (32 - String.length s)).
Proof.
  intros s junk. split; [reflexivity|]. split; [simpl; lia|]. split; [simpl; lia|].
  apply (short_line_decodes_as_zero_padded s junk); [reflexivity | simpl; lia | simpl; lia].
Defined.
